(** * common/cache: a TTL cache over [sync.Map], with a janitor and a
      [fakeip:] snapshot

    Shallow embedding of [common/cache/cache.go].

    - [value] has the dynamic values that a map can find again: nil, bool,
      int, string. A key is any [interface{}]: [iface] adds to these values
      the two kinds of key that a map treats otherwise, a NaN (equal to no
      key, itself included: stored, never found) and a value of a type that
      cannot be hashed (a slice, a map, a func: [sync.Map] panics on it).
      Floating-point numbers other than NaN are outside the model.
    - [sync.Map] is a [gmap value element]; an entry stored under a NaN is
      kept under a key of its own ([VNaNEntry n]), which the iteration
      visits and no key of a caller is equal to. The [*element] that [Put]
      stores is
      the record it points to (an element is never mutated after [Put]); the
      mapping holds nothing else, so asserting that a loaded item is an
      element pointer cannot fail and is not represented.
    - [time.Time] is an instant in nanoseconds ([Z]); [time.Duration] is an
      [int64] count of nanoseconds, and [Time.Sub] saturates as in package
      [time].
    - The code runs in the monad [Go]: a state ([world]), and a run that
      returns, panics, or waits for ever (a send that nothing receives).
      The world holds the mapping, the clock (the readings that successive
      calls of [time.Now] will return), the janitor's status and the file
      system.
    - Iteration orders of [sync.Map.Range] and of [range] over a Go map are
      unspecified: they are parameters of the development, constrained only to
      enumerate the keys. The [encoding/gob] codec is a parameter too. *)

From Stdlib Require Import ZArith Lia.
From stdpp Require Import base option list gmap strings countable fin_maps.

Local Open Scope Z_scope.

(** ** Dynamic values *)

Inductive value : Type :=
  | VNil
  | VBool (b : bool)
  | VInt (z : Z)
  | VString (s : string)
  | VNaNEntry (n : nat).   (* the key of the n-th entry stored under a NaN:
                              a float64 NaN that is in the map; not a value
                              that a caller holds *)

#[global] Instance value_eq_dec : EqDecision value.
Proof. solve_decision. Defined.

Definition value_to_sum (v : value) : unit + bool + Z + string + nat :=
  match v with
  | VNil => inl (inl (inl (inl tt)))
  | VBool b => inl (inl (inl (inr b)))
  | VInt z => inl (inl (inr z))
  | VString s => inl (inr s)
  | VNaNEntry n => inr n
  end.

Definition value_of_sum (x : unit + bool + Z + string + nat) : value :=
  match x with
  | inl (inl (inl (inl _))) => VNil
  | inl (inl (inl (inr b))) => VBool b
  | inl (inl (inr z)) => VInt z
  | inl (inr s) => VString s
  | inr n => VNaNEntry n
  end.

#[global] Instance value_countable : Countable value.
Proof.
  apply (inj_countable' value_to_sum value_of_sum).
  intros []; reflexivity.
Defined.

(** A key as a caller passes it: any [interface{}]. *)
Inductive iface : Type :=
  | Comparable (v : value)   (* found again under an equal key *)
  | NaN                      (* a float64 NaN: equal to no key *)
  | Unhashable.              (* a slice, a map or a func *)

Coercion Comparable : value >-> iface.

(** ** Package [time] *)

Module time.

(** An instant, in nanoseconds. *)
Definition Time : Type := Z.
(** [int64] nanoseconds. *)
Definition Duration : Type := Z.

Definition Nanosecond : Duration := 1.
Definition Second : Duration := 1000000000 * Nanosecond.

Definition minDuration : Duration := - 2 ^ 63.
Definition maxDuration : Duration := 2 ^ 63 - 1.

(** The zero value of [time.Time]. *)
Definition zero : Time := 0.

(** [t.Add(d)] *)
Definition Add (t : Time) (d : Duration) : Time := t + d.

(** [t.Sub(u)]: the difference, clamped to the range of [Duration]. *)
Definition Sub (t u : Time) : Duration :=
  Z.max minDuration (Z.min maxDuration (t - u)).

End time.

(** ** The state *)

(** [type element struct { Expired time.Time; Payload interface{} }] *)
Record element : Type := Element {
  Expired : time.Time;
  Payload : value
}.

#[global] Instance element_eq_dec : EqDecision element.
Proof. solve_decision. Defined.

Inductive error : Type :=
  | ErrCreate   (* os.Create failed *)
  | ErrOpen     (* os.Open failed *)
  | ErrWrite    (* the write under gob's Encode failed *)
  | ErrDecode.  (* gob's Decode failed *)

(** What a path names: something that can be neither created nor opened (a
    directory, a file without permission), or a regular file and its
    contents. A path that names nothing is absent from the file system. *)
Inductive fnode : Type :=
  | Locked
  | Data (bs : list Byte.byte).

(** The goroutine started by [New]: inside its [for]/[select] loop, or
    returned. *)
Inductive jstatus : Type :=
  | Running
  | Returned.

Record world : Type := World {
  mapping : gmap value element;     (* cache.mapping *)
  clock : nat → time.Time;          (* clock 0 is the next reading *)
  janitor : jstatus;
  fs : gmap string fnode;
  disk_free : nat                   (* bytes that can still be written *)
}.

Definition set_mapping (m : gmap value element) (w : world) : world :=
  {| mapping := m; clock := clock w; janitor := janitor w;
     fs := fs w; disk_free := disk_free w |}.

Definition set_clock (c : nat → time.Time) (w : world) : world :=
  {| mapping := mapping w; clock := c; janitor := janitor w;
     fs := fs w; disk_free := disk_free w |}.

Definition set_janitor (j : jstatus) (w : world) : world :=
  {| mapping := mapping w; clock := clock w; janitor := j;
     fs := fs w; disk_free := disk_free w |}.

Definition set_file (p : string) (bs : list Byte.byte) (free : nat) (w : world) : world :=
  {| mapping := mapping w; clock := clock w; janitor := janitor w;
     fs := <[p := Data bs]> (fs w); disk_free := free |}.

(** ** The monad *)

(** A failed type assertion [x.(T)], with the dynamic value and the asserted
    type; [time.NewTicker] on an interval that is not positive; a key that a
    map cannot hash. *)
Inductive gopanic : Type :=
  | InterfaceConversion (have : value) (want : string)
  | NonPositiveInterval
  | UnhashableKey.

(** A run returns, panics, or waits for ever. *)
Inductive outcome (A : Type) : Type :=
  | Done (a : A) (w : world)
  | Panic (p : gopanic)
  | Blocked.
Arguments Done {A} a w.
Arguments Panic {A} p.
Arguments Blocked {A}.

Definition Go (A : Type) : Type := world → outcome A.

Definition ret {A} (a : A) : Go A := λ w, Done a w.

Definition bind {A B} (c : Go A) (k : A → Go B) : Go B :=
  λ w, match c w with
       | Done a w' => k a w'
       | Panic p => Panic p
       | Blocked => Blocked
       end.

Definition panic {A} (p : gopanic) : Go A := λ _, Panic p.

(** What a run returned, and the world it left, if it returned. *)
Definition result {A} (o : outcome A) : option A :=
  match o with
  | Done a _ => Some a
  | _ => None
  end.

Definition final {A} (o : outcome A) : option world :=
  match o with
  | Done _ w => Some w
  | _ => None
  end.

Notation "x <- c ;; k" := (bind c (λ x, k))
  (at level 100, c at next level, right associativity).
Notation "c ;;; k" := (bind c (λ _, k))
  (at level 100, right associativity).

(** [v.(string)] *)
Definition assert_string (v : value) : Go string :=
  match v with
  | VString s => ret s
  | _ => panic (InterfaceConversion v "string")
  end.

(** The world after one reading of the clock. *)
Definition tick (w : world) : world := set_clock (λ n, clock w (S n)) w.

(** [time.Now()]: takes the next reading of the clock. *)
Definition Now : Go time.Time := λ w, Done (clock w 0%nat) (tick w).

(** [time.Since(t)] is [time.Now().Sub(t)]. *)
Definition Since (t : time.Time) : Go time.Duration :=
  now <- Now ;; ret (time.Sub now t).

(** ** [sync.Map] *)

(** A number that no entry stored under a NaN has yet. *)
Definition next_nan (m : gmap value element) : nat :=
  foldr (λ k acc, match k with
                  | VNaNEntry n => Nat.max (S n) acc
                  | _ => acc
                  end) 0%nat (map_to_list m).*1.

(** [m.Load(key)]: a NaN finds nothing; hashing the key panics if its type
    cannot be hashed. *)
Definition Load (key : iface) : Go (option element) :=
  match key with
  | Comparable k => λ w, Done (mapping w !! k) w
  | NaN => ret None
  | Unhashable => panic UnhashableKey
  end.

(** [m.Store(key, e)]: under a NaN, one more entry each time. *)
Definition Store (key : iface) (e : element) : Go unit :=
  match key with
  | Comparable k => λ w, Done tt (set_mapping (<[k := e]> (mapping w)) w)
  | NaN =>
      λ w, Done tt (set_mapping
                      (<[VNaNEntry (next_nan (mapping w)) := e]> (mapping w)) w)
  | Unhashable => panic UnhashableKey
  end.

(** [m.Delete(key)]: a NaN finds nothing to delete. *)
Definition Delete (key : iface) : Go unit :=
  match key with
  | Comparable k => λ w, Done tt (set_mapping (delete k (mapping w)) w)
  | NaN => ret tt
  | Unhashable => panic UnhashableKey
  end.

(** ** The cache *)

(** [func (c *cache) Put(key, payload interface{}, ttl time.Duration)] *)
Definition Put (key : iface) (payload : value) (ttl : time.Duration) : Go unit :=
  now <- Now ;;
  Store key {| Payload := payload; Expired := time.Add now ttl |}.

(** [func (c *cache) Get(key interface{}) interface{}] *)
Definition Get (key : iface) : Go value :=
  item <- Load key ;;
  match item with
  | None => ret VNil
  | Some elm =>
      d <- Since (Expired elm) ;;
      if decide (d > 0) then Delete key ;;; ret VNil
      else ret (Payload elm)
  end.

(** [func (c *cache) GetWithExpire(key interface{}) (payload interface{}, expired time.Time)] *)
Definition GetWithExpire (key : iface) : Go (value * time.Time) :=
  item <- Load key ;;
  match item with
  | None => ret (VNil, time.zero)
  | Some elm =>
      d <- Since (Expired elm) ;;
      if decide (d > 0) then Delete key ;;; ret (VNil, time.zero)
      else ret (Payload elm, Expired elm)
  end.

(** The key holds an element that has not expired at the next clock reading. *)
Definition live (k : value) (w : world) : Prop :=
  ∃ e, mapping w !! k = Some e ∧ clock w 0%nat ≤ Expired e.

(** [strings.HasPrefix(s, prefix)] *)
Definition HasPrefix (s prefix : string) : bool := String.prefix prefix s.

(** The mappings on which the assertions [k.(string)] of [Save] and
    [cleanup] hold: every key is a string. *)
Definition string_keys (m : gmap value element) : Prop :=
  ∀ k e, m !! k = Some e → ∃ s, k = VString s.

(** The mappings on which the assertion [Payload.(string)] of [Save] holds:
    under a key with the prefix the payload is a string. *)
Definition string_payloads (m : gmap value element) : Prop :=
  ∀ s e, m !! VString s = Some e → HasPrefix s "fakeip:" = true →
         ∃ x, Payload e = VString x.

(** What the closure of [Save] writes into [res] for the key [s], when it
    writes. *)
Definition persisted (m : gmap value element) (s : string) : option string :=
  match m !! VString s with
  | Some e =>
      if HasPrefix s "fakeip:" then
        match Payload e with
        | VString x => Some x
        | _ => None
        end
      else None
  | None => None
  end.

(** A clock that stands at [now]: every reading is [now]. *)
Definition standing (w : world) (now : time.Time) : Prop :=
  ∀ n, clock w n = now.

(** A clock that does not go back. *)
Definition nondecreasing (w : world) : Prop :=
  ∀ i j, (i ≤ j)%nat → clock w i ≤ clock w j.

(** An entry on which an assertion of the closure of [Save] fails: its key is
    not a string, or its key has the prefix and its payload is not a
    string. *)
Definition faulty_entry (k : value) (e : element) : Prop :=
  (∀ s, k ≠ VString s) ∨
  (∃ s, k = VString s ∧ HasPrefix s "fakeip:" = true ∧ ∀ x, Payload e ≠ VString x).

(** Arithmetic of [uint32]. *)
Definition uint32 (z : Z) : Z := z mod 2 ^ 32.

(** ** The file system *)

(** An open file is named by its path. *)
Abbreviation File := string (only parsing).

Definition contents (f : File) (w : world) : list Byte.byte :=
  match fs w !! f with
  | Some (Data bs) => bs
  | _ => []
  end.

(** [os.Create(filepath)]: creates the file or truncates it; the bytes of a
    truncated file are free again. *)
Definition os_Create (filepath : string) : Go (File + error) :=
  λ w, match fs w !! filepath with
       | Some Locked => Done (inr ErrCreate) w
       | _ => Done (inl filepath)
                (set_file filepath [] (disk_free w + length (contents filepath w)) w)
       end.

(** [os.Open(filepath)] *)
Definition os_Open (filepath : string) : Go (File + error) :=
  λ w, match fs w !! filepath with
       | Some (Data _) => Done (inl filepath) w
       | _ => Done (inr ErrOpen) w
       end.

(** [f.Write(bs)]: appends, unless the disk is full. *)
Definition file_Write (f : File) (bs : list Byte.byte) : Go (option error) :=
  λ w, if decide (length bs ≤ disk_free w)%nat
       then Done None (set_file f (contents f w ++ bs) (disk_free w - length bs) w)
       else Done (Some ErrWrite) w.

(** ** Concrete instances of the parameters

    One iteration order and one codec, for running the model on examples. *)

Module reference.

Definition sync_order (m : gmap value element) : list value :=
  (map_to_list m).*1.

Definition map_order (m : gmap string string) : list (string * string) :=
  map_to_list m.

(** A string as its length (one byte) and its bytes. *)
Definition put_string (s : string) : list Byte.byte :=
  let bs := String.list_byte_of_string s in
  match Byte.of_nat (length bs) with
  | Some n => n :: bs
  | None => []
  end.

Definition take_string (bs : list Byte.byte) : option (string * list Byte.byte) :=
  match bs with
  | [] => None
  | n :: rest =>
      let n := Byte.to_nat n in
      if decide (n ≤ length rest)%nat
      then Some (String.string_of_list_byte (take n rest), drop n rest)
      else None
  end.

Definition encode (m : gmap string string) : list Byte.byte :=
  flat_map (λ kv, put_string kv.1 ++ put_string kv.2) (map_to_list m).

Fixpoint decode_from (fuel : nat) (bs : list Byte.byte) (acc : gmap string string)
    : option (gmap string string) :=
  match bs, fuel with
  | [], _ => Some acc
  | _, O => None
  | _, S fuel' =>
      match take_string bs with
      | None => None
      | Some (k, r1) =>
          match take_string r1 with
          | None => None
          | Some (v, r2) => decode_from fuel' r2 (<[k := v]> acc)
          end
      end
  end.

Definition decode (bs : list Byte.byte) : option (gmap string string) :=
  decode_from (length bs) bs ∅.

(** A state with the mapping [m], a clock that stands at [t], no file and
    room for 64 bytes. *)
Definition holding (m : gmap value element) (t : time.Time) : world :=
  {| mapping := m; clock := λ _, t; janitor := Running;
     fs := ∅; disk_free := 64 |}.

(** The same, with the file [snapshot] holding the map [items]. *)
Definition snapshotted (m : gmap value element) (t : time.Time)
    (items : gmap string string) : world :=
  {| mapping := m; clock := λ _, t; janitor := Running;
     fs := {[ "snapshot" := Data (encode items) ]}; disk_free := 64 |}.

(** A state with the mapping [m] and a clock that starts at [t0] and gains
    [step] at each reading. *)
Definition advancing (m : gmap value element) (t0 step : time.Time) : world :=
  {| mapping := m; clock := λ n, t0 + step * Z.of_nat n; janitor := Running;
     fs := ∅; disk_free := 64 |}.

(** The store of the round trip of [Save] and [Reload]. *)
Definition two_entries : gmap value element :=
  {[ VString "fakeip:10.0.0.1" := Element 100 (VString "host-a");
     VString "other:1" := Element 100 (VString "x") ]}.

(** A string payload under the prefix, another payload elsewhere. *)
Definition mixed_payloads : gmap value element :=
  {[ VString "fakeip:10.0.0.1" := Element 100 (VString "host-a");
     VString "other:1" := Element 100 (VInt 7) ]}.

(** A payload that is not a string under the prefix. *)
Definition int_payload : gmap value element :=
  {[ VString "fakeip:10.0.0.1" := Element 100 (VInt 7) ]}.

(** A key that is not a string, as [Put(1, "x", ttl)] leaves it. *)
Definition int_key : gmap value element :=
  {[ VInt 1 := Element 100 (VString "x") ]}.


End reference.

Section Cache.

(** The order in which [sync.Map.Range] visits the keys of a mapping. *)
Variable sync_order : gmap value element → list value.
Hypothesis sync_order_keys : ∀ m, sync_order m ≡ₚ (map_to_list m).*1.

(** The order in which [for k, v := range items] visits a Go map. *)
Variable map_order : gmap string string → list (string * string).
Hypothesis map_order_items : ∀ m, map_order m ≡ₚ map_to_list m.

(** [encoding/gob] on [map[string]string]. *)
Variable gob_encode : gmap string string → list Byte.byte.
Variable gob_decode : list Byte.byte → option (gmap string string).

(** [enc.Encode(res)], for [enc := gob.NewEncoder(f)] *)
Definition gob_Encode (f : File) (res : gmap string string) : Go (option error) :=
  file_Write f (gob_encode res).

(** [dec.Decode(&items)], for [dec := gob.NewDecoder(f)] *)
Definition gob_Decode (f : File) : Go (gmap string string + error) :=
  λ w, match gob_decode (contents f w) with
       | Some items => Done (inl items) w
       | None => Done (inr ErrDecode) w
       end.

(** [m.Range(f)]: [f] is called on the keys in turn, with the value stored
    at that moment (a key deleted since the start is skipped), until it
    returns false. The closure's captured variables are the accumulator. *)
Fixpoint range_keys {S : Type} (f : value → element → S → Go (bool * S))
    (keys : list value) (s : S) : Go S :=
  match keys with
  | [] => ret s
  | k :: keys' =>
      item <- Load k ;;
      match item with
      | None => range_keys f keys' s
      | Some v =>
          r <- f k v s ;;
          if r.1 then range_keys f keys' r.2 else ret r.2
      end
  end.

Definition Range {S : Type} (f : value → element → S → Go (bool * S)) (s : S) : Go S :=
  λ w, range_keys f (sync_order (mapping w)) s w.

(** The closure of [Save]. *)
Definition save_entry (k : value) (v : element) (res : gmap string string)
    : Go (bool * gmap string string) :=
  key <- assert_string k ;;
  if HasPrefix key "fakeip:" then
    payload <- assert_string (Payload v) ;;
    ret (true, <[key := payload]> res)
  else ret (true, res).

(** [func (c *cache) Save(filepath string) error]; the deferred [f.Close()]
    changes nothing that is modelled. *)
Definition Save (filepath : string) : Go (option error) :=
  r <- os_Create filepath ;;
  match r with
  | inr err => ret (Some err)
  | inl f =>
      res <- Range save_entry ∅ ;;
      err <- gob_Encode f res ;;
      match err with
      | Some e => ret (Some e)
      | None => ret None
      end
  end.

(** The loop of [Reload]; [res] is a [uint32]. *)
Fixpoint reload_items (items : list (string * string)) (res : Z) : Go Z :=
  match items with
  | [] => ret res
  | (k, v) :: items' =>
      Put (VString k) (VString v) (600 * time.Second) ;;;
      reload_items items' (uint32 (res + 1))
  end.

(** [func (c *cache) Reload(filepath string) uint32] *)
Definition Reload (filepath : string) : Go Z :=
  r <- os_Open filepath ;;
  match r with
  | inr _ => ret 0
  | inl f =>
      d <- gob_Decode f ;;
      match d with
      | inr _ => ret 0
      | inl items => reload_items (map_order items) 0
      end
  end.

(** The closure of [cleanup]. *)
Definition cleanup_entry (k : value) (v : element) (_ : unit) : Go (bool * unit) :=
  key <- assert_string k ;;
  d <- Since (Expired v) ;;
  (if decide (d > 0) then Delete (VString key) else ret tt) ;;;
  ret (true, tt).

(** [func (c *cache) cleanup()] *)
Definition cleanup : Go unit := Range cleanup_entry tt.

(** ** The janitor *)

(** What the [select] of [process] can receive. *)
Inductive event : Type :=
  | Tick          (* <-ticker.C *)
  | StopSignal.   (* <-j.stop *)

(** One pass through the [select] of [process], on the event received: a
    sweep, and the loop goes on; or [ticker.Stop()] and [return]. *)
Definition process_select (ev : event) : Go bool :=
  match ev with
  | Tick => cleanup ;;; ret true
  | StopSignal => λ w, Done false (set_janitor Returned w)
  end.

(** [func (j *janitor) process(c *cache)], on the events that its [select]
    receives, in order. With no event left the goroutine waits. *)
Fixpoint process (events : list event) : Go unit :=
  match events with
  | [] => ret tt
  | ev :: events' =>
      again <- process_select ev ;;
      if again then process events' else ret tt
  end.

(** The goroutine among the others: an event is received if [process] is in
    its loop; once [process] has returned nothing is received and nothing
    happens to the cache (the ticker is stopped; what becomes of a sender on
    [j.stop] is in [stopJanitor]). *)
Definition deliver (ev : event) : Go unit :=
  λ w, match janitor w with
       | Running => (process_select ev ;;; ret tt) w
       | Returned => Done tt w
       end.

(** [func New(interval time.Duration) *Cache]: an empty mapping, and the
    goroutine of [process] started. The goroutine begins with
    [time.NewTicker(j.interval)], which panics unless the interval is
    positive; a panic in a goroutine ends the program, and the model shows it
    here. The handle under consideration becomes the new one; the environment
    (clock, files) is shared. [runtime.SetFinalizer(C, stopJanitor)] leaves
    the call of [stopJanitor] to the garbage collector: it is an event of
    the system, not a step of [New]. *)
Definition New (interval : time.Duration) : Go unit :=
  if decide (interval ≤ 0) then panic NonPositiveInterval
  else λ w, Done tt (set_janitor Running (set_mapping ∅ w)).

(** [func stopJanitor(c *Cache)]: the send on [j.stop] returns when the
    [select] of [process] has received it; with [process] returned nothing
    receives, and the sender waits for ever. *)
Definition stopJanitor : Go unit :=
  λ w, match janitor w with
       | Running => deliver StopSignal w
       | Returned => Blocked
       end.

(** A step of the whole system: the janitor receives an event, or a caller
    calls the cache. *)
Inductive action : Type :=
  | Janitor (ev : event)
  | CallPut (key : iface) (payload : value) (ttl : time.Duration)
  | CallGet (key : iface)
  | CallGetWithExpire (key : iface).

Definition is_call (a : action) : bool :=
  match a with
  | Janitor _ => false
  | _ => true
  end.

(** What a caller gets back. *)
Inductive answer : Type :=
  | Stored
  | Got (payload : value)
  | GotWithExpire (payload : value) (expired : time.Time).

Definition step (a : action) : Go (option answer) :=
  match a with
  | Janitor ev => deliver ev ;;; ret None
  | CallPut k v ttl => Put k v ttl ;;; ret (Some Stored)
  | CallGet k => v <- Get k ;; ret (Some (Got v))
  | CallGetWithExpire k => r <- GetWithExpire k ;; ret (Some (GotWithExpire r.1 r.2))
  end.

(** A trace of the system, and the answers the callers got, in order. *)
Fixpoint run (tr : list action) : Go (list answer) :=
  match tr with
  | [] => ret []
  | a :: tr' => r <- step a ;; rs <- run tr' ;; ret (option_list r ++ rs)
  end.


(** A key that a map can hash. *)
Definition hashable (k : iface) : Prop := k ≠ Unhashable.

(** A call on a key that can be hashed, or a tick. *)
Definition hashable_step (a : action) : Prop :=
  match a with
  | CallPut k _ _ | CallGet k | CallGetWithExpire k => hashable k
  | Janitor ev => ev = Tick
  end.

(** The same, and nothing is put under a key that is not a string. *)
Definition string_step (a : action) : Prop :=
  match a with
  | CallPut k _ _ => ∃ s, k = Comparable (VString s)
  | CallGet k | CallGetWithExpire k => hashable k
  | Janitor ev => ev = Tick
  end.

(** * Properties *)

(** ** The clock and expiry *)

Lemma Sub_pos (now t : time.Time) : time.Sub now t > 0 ↔ t < now.
Proof. unfold time.Sub, time.minDuration, time.maxDuration. lia. Qed.

Lemma Since_run (t : time.Time) (w : world) :
  Since t w = Done (time.Sub (clock w 0%nat) t) (tick w).
Proof. reflexivity. Qed.

Lemma mapping_tick (w : world) : mapping (tick w) = mapping w.
Proof. reflexivity. Qed.

Lemma clock_tick (w : world) (n : nat) : clock (tick w) n = clock w (S n).
Proof. reflexivity. Qed.

(** ** [Put] *)

Lemma Put_run (k v : value) (ttl : time.Duration) (w : world) :
  Put k v ttl w =
  Done tt (set_mapping (<[k := Element (clock w 0%nat + ttl) v]> (mapping w)) (tick w)).
Proof. reflexivity. Qed.

(** ** [Get] *)

Lemma Get_absent (k : value) (w : world) :
  mapping w !! k = None → Get k w = Done VNil w.
Proof. intros H. unfold Get, bind, Load. rewrite H. reflexivity. Qed.

Lemma Get_expired (k : value) (e : element) (w : world) :
  mapping w !! k = Some e → Expired e < clock w 0%nat →
  Get k w = Done VNil (set_mapping (delete k (mapping w)) (tick w)).
Proof.
  intros H Hexp. unfold Get, bind, Load. rewrite H, Since_run.
  destruct (decide _) as [_|Hn]; [reflexivity|].
  exfalso. apply Hn, Sub_pos, Hexp.
Qed.

Lemma Get_live (k : value) (e : element) (w : world) :
  mapping w !! k = Some e → clock w 0%nat ≤ Expired e →
  Get k w = Done (Payload e) (tick w).
Proof.
  intros H Hlive. unfold Get, bind, Load. rewrite H, Since_run.
  destruct (decide _) as [Hp|_]; [|reflexivity].
  apply Sub_pos in Hp. lia.
Qed.

(** After [Put k v t], a [Get k] whose clock reading is no later than the
    expiration returns [v]. *)
Lemma Put_Get_within (k v : value) (t : time.Duration) (w : world) :
  clock w 1%nat ≤ clock w 0%nat + t →
  (Put k v t ;;; Get k) w =
  Done v (tick (set_mapping (<[k := Element (clock w 0%nat + t) v]> (mapping w)) (tick w))).
Proof.
  intros H. unfold bind at 1. rewrite Put_run.
  rewrite (Get_live k (Element (clock w 0%nat + t) v));
    [reflexivity | apply lookup_insert_eq | exact H].
Qed.

(** C1 (amended). For every key [k] that a map finds again (a key that can be
    hashed and is equal to itself: every comparable key but a NaN), payload
    [v] and TTL [t > 0], [Put(k, v, t)] followed by [Get(k)] with no time
    passing between the two calls (the two readings of the clock are equal)
    returns [v]. *)
Theorem Put_then_Get (k v : value) (t : time.Duration) (w : world) :
  0 < t →
  clock w 1%nat = clock w 0%nat →
  result ((Put (Comparable k) v t ;;; Get (Comparable k)) w) = Some v.
Proof.
  intros Ht Hsame. rewrite Put_Get_within; [reflexivity | lia].
Qed.

(** C2. For a key [k] present in the mapping with element [e]: if the clock is
    strictly past [Expired e], [Get k] deletes [k] and returns nil; otherwise
    it returns the stored payload and leaves the mapping as it is. So whenever
    [Get] returns the payload of the element it found, that element has not
    expired. *)
Theorem Get_lazy_eviction (k : value) (e : element) (w : world) :
  mapping w !! k = Some e →
  (Expired e < clock w 0%nat →
     Get k w = Done VNil (set_mapping (delete k (mapping w)) (tick w))) ∧
  (clock w 0%nat ≤ Expired e → Get k w = Done (Payload e) (tick w)) ∧
  (∀ v, result (Get k w) = Some v → v ≠ VNil →
     v = Payload e ∧ clock w 0%nat ≤ Expired e).
Proof.
  intros H. split; [|split].
  - apply Get_expired, H.
  - apply Get_live, H.
  - intros v Hv Hnil.
    destruct (Z.lt_ge_cases (Expired e) (clock w 0%nat)) as [Hlt|Hge].
    + rewrite (Get_expired k e w H Hlt) in Hv. simpl in Hv. congruence.
    + rewrite (Get_live k e w H Hge) in Hv. simpl in Hv.
      split; [congruence | exact Hge].
Qed.


(** ** [GetWithExpire] *)

Lemma GetWithExpire_absent (k : value) (w : world) :
  mapping w !! k = None → GetWithExpire k w = Done (VNil, time.zero) w.
Proof. intros H. unfold GetWithExpire, bind, Load. rewrite H. reflexivity. Qed.

Lemma GetWithExpire_expired (k : value) (e : element) (w : world) :
  mapping w !! k = Some e → Expired e < clock w 0%nat →
  GetWithExpire k w =
  Done (VNil, time.zero) (set_mapping (delete k (mapping w)) (tick w)).
Proof.
  intros H Hexp. unfold GetWithExpire, bind, Load. rewrite H, Since_run.
  destruct (decide _) as [_|Hn]; [reflexivity|].
  exfalso. apply Hn, Sub_pos, Hexp.
Qed.

Lemma GetWithExpire_live (k : value) (e : element) (w : world) :
  mapping w !! k = Some e → clock w 0%nat ≤ Expired e →
  GetWithExpire k w = Done (Payload e, Expired e) (tick w).
Proof.
  intros H Hlive. unfold GetWithExpire, bind, Load. rewrite H, Since_run.
  destruct (decide _) as [Hp|_]; [|reflexivity].
  apply Sub_pos in Hp. lia.
Qed.

Lemma live_dec (k : value) (w : world) : live k w ∨ ¬ live k w.
Proof.
  unfold live. destruct (mapping w !! k) as [e|] eqn:H.
  - destruct (Z.le_gt_cases (clock w 0%nat) (Expired e)) as [Hle|Hgt].
    + left. eauto.
    + right. intros (e' & He' & Hle). simplify_eq. lia.
  - right. intros (e' & He' & _). congruence.
Qed.




(** ** [Reload] *)

Lemma uint32_range (z : Z) : 0 ≤ uint32 z < 2 ^ 32.
Proof. unfold uint32. apply Z.mod_pos_bound. lia. Qed.

Lemma uint32_succ (res : Z) (n : nat) :
  uint32 (uint32 (res + 1) + Z.of_nat n) = uint32 (res + Z.of_nat (S n)).
Proof.
  unfold uint32. rewrite Zplus_mod_idemp_l. f_equal. lia.
Qed.

Lemma uint32_small (z : Z) : 0 ≤ z < 2 ^ 32 → uint32 z = z.
Proof. intros H. unfold uint32. apply Z.mod_small, H. Qed.

(** The loop of [Reload]: it counts modulo [2^32], takes one clock reading per
    pair, stores each pair with that reading plus 600 seconds, and touches no
    other key. *)
Lemma reload_items_run (items : list (string * string)) :
  ∀ (res : Z) (w : world),
    0 ≤ res < 2 ^ 32 →
    ∃ w',
      reload_items items res w = Done (uint32 (res + Z.of_nat (length items))) w' ∧
      (∀ n, clock w' n = clock w (length items + n)%nat) ∧
      janitor w' = janitor w ∧ fs w' = fs w ∧ disk_free w' = disk_free w ∧
      (∀ key, (∀ s, key = VString s → s ∉ items.*1) →
              mapping w' !! key = mapping w !! key) ∧
      (NoDup items.*1 →
       ∀ i k v, items !! i = Some (k, v) →
         mapping w' !! VString k =
         Some (Element (clock w i + 600 * time.Second) (VString v))).
Proof.
  induction items as [|[k v] items IH]; intros res w Hres.
  - exists w. simpl. rewrite Z.add_0_r, uint32_small by exact Hres.
    repeat split; try done.
  - simpl. unfold bind at 1. rewrite Put_run.
    set (w1 := set_mapping _ (tick w)).
    destruct (IH (uint32 (res + 1)) w1 (uint32_range _))
      as (w' & Hrun & Hclock & Hjan & Hfs & Hdisk & Hother & Hloaded).
    exists w'. rewrite Hrun, uint32_succ.
    split; [reflexivity|]. split; [|split; [|split; [|split; [|split]]]].
    + intros n. rewrite Hclock. reflexivity.
    + rewrite Hjan. reflexivity.
    + rewrite Hfs. reflexivity.
    + rewrite Hdisk. reflexivity.
    + intros key Hkey. rewrite Hother.
      * subst w1. simpl. apply lookup_insert_ne. intros <-.
        apply (Hkey k eq_refl). simpl. left.
      * intros s -> Hin. apply (Hkey s eq_refl). simpl. by right.
    + intros Hnd i k' v' Hi. simpl in Hnd. apply NoDup_cons in Hnd as [Hk Hnd].
      destruct i as [|i]; simpl in Hi.
      * injection Hi as <- <-. rewrite Hother.
        -- subst w1. simpl. apply lookup_insert_eq.
        -- intros s [= <-]. exact Hk.
      * rewrite (Hloaded Hnd i k' v' Hi). reflexivity.
Qed.

Lemma map_order_NoDup (items : gmap string string) : NoDup (map_order items).*1.
Proof.
  rewrite (map_order_items items). apply NoDup_fst_map_to_list.
Qed.

Lemma map_order_length (items : gmap string string) :
  length (map_order items) = size items.
Proof.
  rewrite (map_order_items items). apply length_map_to_list.
Qed.

Lemma map_order_keys (items : gmap string string) (s : string) :
  s ∈ (map_order items).*1 ↔ is_Some (items !! s).
Proof.
  rewrite (map_order_items items), list_elem_of_fmap. split.
  - intros ([k v] & -> & Hin). apply elem_of_map_to_list in Hin. eauto.
  - intros [v Hv]. exists (s, v). split; [reflexivity|].
    by apply elem_of_map_to_list.
Qed.

(** [Reload] on a file that opens and decodes. *)
Lemma Reload_decoded (filepath : string) (bs : list Byte.byte)
    (items : gmap string string) (w : world) :
  fs w !! filepath = Some (Data bs) →
  gob_decode bs = Some items →
  Reload filepath w = reload_items (map_order items) 0 w.
Proof.
  intros Hfs Hdec. unfold Reload, bind, os_Open, gob_Decode, contents.
  rewrite Hfs. simpl. rewrite Hfs, Hdec. reflexivity.
Qed.

(** C6. When the file opens and decodes to [items], [Reload] returns the
    number of entries of [items] (as a [uint32]: the number itself below
    [2^32]), and every pair is stored with the clock reading taken when it is
    loaded plus 600 seconds as its expiration, whatever the mapping held for
    that key before; the pair visited as number [i] takes reading number [i]
    of the clock. Keys that are not in the file are left as they were. *)
Theorem Reload_fixed_ttl (filepath : string) (bs : list Byte.byte)
    (items : gmap string string) (w : world) :
  fs w !! filepath = Some (Data bs) →
  gob_decode bs = Some items →
  ∃ w',
    Reload filepath w = Done (uint32 (Z.of_nat (size items))) w' ∧
    (Z.of_nat (size items) < 2 ^ 32 →
       result (Reload filepath w) = Some (Z.of_nat (size items))) ∧
    (∀ i k v, map_order items !! i = Some (k, v) →
       mapping w' !! VString k =
       Some (Element (clock w i + 600 * time.Second) (VString v))) ∧
    (∀ k v, items !! k = Some v →
       ∃ i, (i < size items)%nat ∧
         mapping w' !! VString k =
         Some (Element (clock w i + 600 * time.Second) (VString v))) ∧
    (∀ key, (∀ s, key = VString s → items !! s = None) →
       mapping w' !! key = mapping w !! key).
Proof.
  intros Hfs Hdec. rewrite (Reload_decoded filepath bs items w Hfs Hdec).
  destruct (reload_items_run (map_order items) 0 w ltac:(lia))
    as (w' & Hrun & _ & _ & _ & _ & Hother & Hloaded).
  rewrite map_order_length, Z.add_0_l in Hrun.
  specialize (Hloaded (map_order_NoDup items)).
  exists w'. split; [exact Hrun|]. split; [|split; [|split]].
  - intros Hsmall. rewrite Hrun. simpl. f_equal. apply uint32_small. lia.
  - exact Hloaded.
  - intros k v Hkv.
    assert (Hin : (k, v) ∈ map_order items).
    { rewrite (map_order_items items). by apply elem_of_map_to_list. }
    apply list_elem_of_lookup in Hin as [i Hi].
    exists i. split; [|by apply Hloaded].
    rewrite <- map_order_length. by apply lookup_lt_Some in Hi.
  - intros key Hkey. apply Hother. intros s -> Hin.
    apply map_order_keys in Hin as [v Hv]. rewrite (Hkey s eq_refl) in Hv.
    discriminate.
Qed.

(** C7. When the file cannot be opened (the path names no regular file) or
    its contents do not decode, [Reload] returns 0 (its only result: there is
    no error value) and leaves the whole state, the mapping included, as it
    was. *)
Theorem Reload_failure (filepath : string) (w : world) :
  (∀ bs, fs w !! filepath = Some (Data bs) → gob_decode bs = None) →
  Reload filepath w = Done 0 w.
Proof.
  intros H. unfold Reload, bind, os_Open, gob_Decode, contents.
  destruct (fs w !! filepath) as [[|bs]|] eqn:Hfs; try reflexivity.
  simpl. rewrite Hfs, (H bs eq_refl). reflexivity.
Qed.


(** ** [Range] *)

Lemma sync_order_NoDup (m : gmap value element) : NoDup (sync_order m).
Proof. rewrite (sync_order_keys m). apply NoDup_fst_map_to_list. Qed.

Lemma sync_order_elem (m : gmap value element) (k : value) :
  k ∈ sync_order m ↔ is_Some (m !! k).
Proof.
  rewrite (sync_order_keys m), list_elem_of_fmap. split.
  - intros ([k' e] & -> & Hin). apply elem_of_map_to_list in Hin. eauto.
  - intros [e He]. exists (k, e). split; [reflexivity|].
    by apply elem_of_map_to_list.
Qed.

Lemma sync_order_length (m : gmap value element) :
  length (sync_order m) = size m.
Proof.
  rewrite (sync_order_keys m), length_fmap. apply length_map_to_list.
Qed.

Lemma range_keys_cons {S : Type} (f : value → element → S → Go (bool * S))
    (k : value) (keys : list value) (s : S) (w : world) :
  range_keys f (k :: keys) s w =
  match mapping w !! k with
  | None => range_keys f keys s w
  | Some v =>
      match f k v s w with
      | Done r w' => if r.1 then range_keys f keys r.2 w' else Done r.2 w'
      | Panic p => Panic p
      | Blocked => Blocked
      end
  end.
Proof.
  simpl. unfold bind, Load. destruct (mapping w !! k); [|reflexivity].
  destruct (f k e s w) as [r w'|p|]; [|reflexivity|reflexivity].
  destruct (r.1); reflexivity.
Qed.

(** ** [Save] *)

Lemma save_entry_run (s : string) (e : element) (res : gmap string string) (w : world) :
  (HasPrefix s "fakeip:" = true → ∃ x, Payload e = VString x) →
  save_entry (VString s) e res w =
  Done (true, match (if HasPrefix s "fakeip:" then
                       match Payload e with VString x => Some x | _ => None end
                     else None) with
              | Some x => <[s := x]> res
              | None => res
              end) w.
Proof.
  intros Hp. unfold save_entry, bind. simpl.
  destruct (HasPrefix s "fakeip:"); [|reflexivity].
  destruct (Hp eq_refl) as [x ->]. reflexivity.
Qed.

(** The closure of [Save] over a list of string keys: the state is not
    touched, and [res] receives the persisted entries of the keys visited. *)
Lemma range_save_entry (w : world) (keys : list value) :
  string_payloads (mapping w) →
  (∀ k, k ∈ keys → ∃ s, k = VString s) →
  ∀ acc, ∃ res,
    range_keys save_entry keys acc w = Done res w ∧
    ∀ s, res !! s =
         if decide (VString s ∈ keys)
         then persisted (mapping w) s ∪ acc !! s
         else acc !! s.
Proof.
  intros Hpay. induction keys as [|k keys IH]; intros Hkeys acc.
  - exists acc. split; [reflexivity|]. intros s.
    destruct (decide _) as [Hin|_]; [|reflexivity]. by apply elem_of_nil in Hin.
  - destruct (Hkeys k) as [s0 ->]; [left|].
    assert (Hrest : ∀ k, k ∈ keys → ∃ s, k = VString s).
    { intros k Hk. apply Hkeys. by right. }
    rewrite range_keys_cons.
    destruct (mapping w !! VString s0) as [e|] eqn:He.
    + rewrite save_entry_run by (intros Hpre; exact (Hpay s0 e He Hpre)). simpl.
      set (acc' := match _ with Some x => <[s0 := x]> acc | None => acc end).
      destruct (IH Hrest acc') as (res & Hrun & Hres).
      exists res. split; [exact Hrun|]. intros s. rewrite Hres.
      assert (Hp0 : persisted (mapping w) s0 =
                    if HasPrefix s0 "fakeip:" then
                      match Payload e with VString x => Some x | _ => None end
                    else None).
      { unfold persisted. rewrite He. reflexivity. }
      destruct (decide (s = s0)) as [->|Hne].
      * rewrite (decide_True (P := VString s0 ∈ VString s0 :: keys)) by left.
        subst acc'. rewrite <- Hp0.
        destruct (persisted (mapping w) s0) as [x|] eqn:Hx.
        -- rewrite lookup_insert_eq. by destruct (decide _), (acc !! s0).
        -- by destruct (decide _), (acc !! s0).
      * assert (Hacc : acc' !! s = acc !! s).
        { subst acc'. destruct (if HasPrefix s0 "fakeip:" then _ else _);
            [by apply lookup_insert_ne | reflexivity]. }
        rewrite Hacc.
        destruct (decide (VString s ∈ keys)) as [Hin|Hnin].
        -- rewrite decide_True by (by right). reflexivity.
        -- rewrite decide_False; [reflexivity|].
           intros [Heq|Hin]%elem_of_cons; [congruence | contradiction].
    + destruct (IH Hrest acc) as (res & Hrun & Hres).
      exists res. split; [exact Hrun|]. intros s. rewrite Hres.
      destruct (decide (s = s0)) as [->|Hne].
      * rewrite (decide_True (P := VString s0 ∈ VString s0 :: keys)) by left.
        assert (Hp0 : persisted (mapping w) s0 = None).
        { unfold persisted. by rewrite He. }
        rewrite Hp0. by destruct (decide _), (acc !! s0).
      * destruct (decide (VString s ∈ keys)) as [Hin|Hnin].
        -- rewrite decide_True by (by right). reflexivity.
        -- rewrite decide_False; [reflexivity|].
           intros [Heq|Hin]%elem_of_cons; [congruence | contradiction].
Qed.

Lemma persisted_Some (m : gmap value element) (s x : string) :
  persisted m s = Some x ↔
  HasPrefix s "fakeip:" = true ∧ ∃ e, m !! VString s = Some e ∧ Payload e = VString x.
Proof.
  unfold persisted. split.
  - destruct (m !! VString s) as [e|]; [|discriminate].
    destruct (HasPrefix s "fakeip:"); [|discriminate].
    destruct (Payload e) eqn:Hp; try discriminate.
    intros [= <-]. eauto.
  - intros (-> & e & -> & ->). reflexivity.
Qed.

(** The [Range] of [Save] on a mapping with string keys and string payloads
    under the prefix. *)
Lemma Range_save_entry (w : world) :
  string_keys (mapping w) → string_payloads (mapping w) →
  ∃ res, Range save_entry ∅ w = Done res w ∧
         ∀ s, res !! s = persisted (mapping w) s.
Proof.
  intros Hkeys Hpay.
  destruct (range_save_entry w (sync_order (mapping w)) Hpay) with (acc := (∅ : gmap string string))
    as (res & Hrun & Hres).
  { intros k [e He]%sync_order_elem. exact (Hkeys k e He). }
  exists res. split; [exact Hrun|]. intros s. rewrite Hres, lookup_empty.
  destruct (decide _) as [_|Hnin].
  - by destruct (persisted (mapping w) s).
  - unfold persisted. destruct (mapping w !! VString s) as [e|] eqn:He; [|reflexivity].
    exfalso. apply Hnin, sync_order_elem. eauto.
Qed.


Lemma contents_set_file (p : string) (bs : list Byte.byte) (free : nat) (w : world) :
  contents p (set_file p bs free w) = bs.
Proof. unfold contents, set_file. simpl. by rewrite lookup_insert_eq. Qed.

(** [Save] on a mapping that meets its assertions: the only failures are those
    of the file system. *)
Lemma Save_run (filepath : string) (w : world) :
  string_keys (mapping w) → string_payloads (mapping w) →
  ∃ res,
    (∀ s, res !! s = persisted (mapping w) s) ∧
    Save filepath w =
    match fs w !! filepath with
    | Some Locked => Done (Some ErrCreate) w
    | _ =>
        let free := (disk_free w + length (contents filepath w))%nat in
        if decide (length (gob_encode res) ≤ free)%nat
        then Done None (set_file filepath (gob_encode res)
                          (free - length (gob_encode res))
                          (set_file filepath [] free w))
        else Done (Some ErrWrite) (set_file filepath [] free w)
    end.
Proof.
  intros Hkeys Hpay.
  set (free := (disk_free w + length (contents filepath w))%nat).
  set (w1 := set_file filepath [] free w).
  destruct (Range_save_entry w1 Hkeys Hpay) as (res & Hrange & Hres).
  exists res. split; [exact Hres|].
  assert (Hcreated : fs w !! filepath ≠ Some Locked →
            Save filepath w =
            if decide (length (gob_encode res) ≤ free)%nat
            then Done None (set_file filepath (gob_encode res)
                              (free - length (gob_encode res)) w1)
            else Done (Some ErrWrite) w1).
  { intros Hfs. unfold Save, bind at 1, os_Create.
    assert (Hc : match fs w !! filepath with
                 | Some Locked => Done (inr ErrCreate) w
                 | _ => Done (inl filepath) w1
                 end = Done (inl filepath) w1).
    { destruct (fs w !! filepath) as [[|?]|]; [contradiction | done | done]. }
    fold free. fold w1. rewrite Hc.
    unfold bind at 1. rewrite Hrange.
    unfold bind, gob_Encode, file_Write.
    assert (Hempty : contents filepath w1 = []) by apply contents_set_file.
    rewrite Hempty. simpl.
    destruct (decide _); reflexivity. }
  destruct (fs w !! filepath) as [[|bs]|] eqn:Hfs.
  - unfold Save, bind, os_Create. rewrite Hfs. reflexivity.
  - apply Hcreated. discriminate.
  - apply Hcreated. discriminate.
Qed.

(** C3 (amended). On a store whose keys are all strings and in which every
    entry with a key starting with [fakeip:] has a string payload, [Save]
    does not panic; it leaves the mapping as it is; it succeeds exactly when
    the file can be created and the encoding written; and the map [res] it
    then writes holds exactly the entries whose key starts with [fakeip:],
    so that an entry under any other key is skipped, whatever its payload. *)
Theorem Save_persists_prefixed (filepath : string) (w : world) :
  string_keys (mapping w) → string_payloads (mapping w) →
  ∃ res err w',
    (∀ s x, res !! s = Some x ↔
            HasPrefix s "fakeip:" = true ∧
            ∃ e, mapping w !! VString s = Some e ∧ Payload e = VString x) ∧
    Save filepath w = Done err w' ∧
    mapping w' = mapping w ∧
    (err = None ↔
       fs w !! filepath ≠ Some Locked ∧
       (length (gob_encode res) ≤ disk_free w + length (contents filepath w))%nat) ∧
    (err = None → contents filepath w' = gob_encode res).
Proof.
  intros Hkeys Hpay.
  destruct (Save_run filepath w Hkeys Hpay) as (res & Hres & Hrun).
  assert (Hiff : ∀ s x, res !! s = Some x ↔
            HasPrefix s "fakeip:" = true ∧
            ∃ e, mapping w !! VString s = Some e ∧ Payload e = VString x).
  { intros s x. rewrite Hres. apply persisted_Some. }
  exists res.
  destruct (fs w !! filepath) as [[|bs]|] eqn:Hfs.
  - exists (Some ErrCreate), w. split; [exact Hiff|]. split; [exact Hrun|].
    split; [reflexivity|]. split; [|discriminate].
    split; [discriminate|]. intros [Hl _]. by destruct Hl.
  - simpl in Hrun. destruct (decide _) as [Hle|Hgt] in Hrun.
    + eexists None, _. split; [exact Hiff|]. split; [exact Hrun|].
      split; [reflexivity|]. split; [|intros _; apply contents_set_file].
      split; [|reflexivity]. intros _. split; [discriminate | exact Hle].
    + eexists (Some ErrWrite), _. split; [exact Hiff|]. split; [exact Hrun|].
      split; [reflexivity|]. split; [|discriminate].
      split; [discriminate|]. intros [_ Hle]. contradiction.
  - simpl in Hrun. destruct (decide _) as [Hle|Hgt] in Hrun.
    + eexists None, _. split; [exact Hiff|]. split; [exact Hrun|].
      split; [reflexivity|]. split; [|intros _; apply contents_set_file].
      split; [|reflexivity]. intros _. split; [discriminate | exact Hle].
    + eexists (Some ErrWrite), _. split; [exact Hiff|]. split; [exact Hrun|].
      split; [reflexivity|]. split; [|discriminate].
      split; [discriminate|]. intros [_ Hle]. contradiction.
Qed.


(** ** [Save], then [Reload] *)

Lemma persisted_example (t1 t2 : time.Time) (s : string) :
  persisted {[ VString "fakeip:10.0.0.1" := Element t1 (VString "host-a");
               VString "other:1" := Element t2 (VString "x") ]} s =
  ({[ "fakeip:10.0.0.1" := "host-a" ]} : gmap string string) !! s.
Proof.
  unfold persisted.
  destruct (decide (s = "fakeip:10.0.0.1")) as [->|Hne1].
  - rewrite lookup_insert_eq, lookup_singleton_eq. reflexivity.
  - rewrite lookup_insert_ne by congruence.
    rewrite (lookup_singleton_ne (M := gmap string)) by congruence.
    destruct (decide (s = "other:1")) as [->|Hne2].
    + rewrite lookup_singleton_eq. reflexivity.
    + rewrite lookup_singleton_ne by congruence. reflexivity.
Qed.

(** The round trip in general: after [Save] of a store that meets its
    assertions, [Reload] into a new handle brings back exactly the persisted
    entries, each with 600 seconds to live from its own clock reading. *)
Lemma Save_then_Reload (filepath : string) (interval : time.Duration) (w : world) :
  string_keys (mapping w) → string_payloads (mapping w) →
  fs w !! filepath ≠ Some Locked →
  0 < interval →
  ∃ res,
    (∀ s, res !! s = persisted (mapping w) s) ∧
    ((length (gob_encode res) ≤ disk_free w + length (contents filepath w))%nat →
     gob_decode (gob_encode res) = Some res →
     ∃ w1 w2,
       Save filepath w = Done None w1 ∧
       (New interval ;;; Reload filepath) w1 = Done (uint32 (Z.of_nat (size res))) w2 ∧
       (∀ s x, res !! s = Some x →
          ∃ i, (i < size res)%nat ∧
               mapping w2 !! VString s =
               Some (Element (clock w i + 600 * time.Second) (VString x))) ∧
       (∀ key, (∀ s, key = VString s → res !! s = None) → mapping w2 !! key = None) ∧
       (∀ n, clock w2 n = clock w (size res + n)%nat)).
Proof.
  intros Hkeys Hpay Hfs Hinterval.
  destruct (Save_run filepath w Hkeys Hpay) as (res & Hres & Hrun).
  exists res. split; [exact Hres|]. intros Hroom Hcodec.
  assert (Hsave : Save filepath w =
            Done None
              (set_file filepath (gob_encode res)
                 (disk_free w + length (contents filepath w) - length (gob_encode res))
                 (set_file filepath [] (disk_free w + length (contents filepath w)) w))).
  { rewrite Hrun. destruct (fs w !! filepath) as [[|?]|]; [contradiction | |];
      simpl; by rewrite decide_True. }
  set (w1 := set_file filepath (gob_encode res) _ _) in Hsave.
  set (w0 := set_janitor Running (set_mapping ∅ w1)).
  assert (Hnew : (New interval ;;; Reload filepath) w1 = Reload filepath w0).
  { unfold bind, New. by rewrite decide_False by lia. }
  assert (Hfile : fs w0 !! filepath = Some (Data (gob_encode res))).
  { subst w0 w1. simpl. apply lookup_insert_eq. }
  destruct (reload_items_run (map_order res) 0 w0 ltac:(lia))
    as (w2 & Hload & Hclock & _ & _ & _ & Hother & Hloaded).
  rewrite map_order_length in Hclock.
  rewrite map_order_length, Z.add_0_l in Hload.
  specialize (Hloaded (map_order_NoDup res)).
  exists w1, w2. split; [exact Hsave|].
  rewrite Hnew, (Reload_decoded filepath _ res w0 Hfile Hcodec).
  split; [exact Hload|]. split; [|split; [|exact Hclock]].
  - intros s x Hsx.
    assert (Hin : (s, x) ∈ map_order res).
    { rewrite (map_order_items res). by apply elem_of_map_to_list. }
    apply list_elem_of_lookup in Hin as [i Hi]. exists i. split.
    + rewrite <- map_order_length. by apply lookup_lt_Some in Hi.
    + apply (Hloaded i s x Hi).
  - intros key Hkey. rewrite Hother; [apply lookup_empty|].
    intros s -> [x Hx]%map_order_keys. rewrite (Hkey s eq_refl) in Hx. discriminate.
Qed.

(** C5. A store holds ["fakeip:10.0.0.1"] with payload ["host-a"] and
    ["other:1"] with payload ["x"]. [Save] (on a path that can be created, a
    disk with room, and a codec that decodes what it encoded) succeeds and
    leaves in the file the encoding of the map with the [fakeip:] entry
    alone. [Reload] of that file into a handle made by [New] (with a positive
    interval) returns 1, and then, the 600 seconds of the reloaded entry not
    being over, [Get "fakeip:10.0.0.1"] returns ["host-a"] and
    [Get "other:1"] returns nil. *)
Theorem Save_Reload_round_trip (filepath : string) (interval : time.Duration)
    (t1 t2 : time.Time) (w : world) :
  mapping w = {[ VString "fakeip:10.0.0.1" := Element t1 (VString "host-a");
                 VString "other:1" := Element t2 (VString "x") ]} →
  fs w !! filepath ≠ Some Locked →
  (length (gob_encode {[ "fakeip:10.0.0.1" := "host-a" ]})
     ≤ disk_free w + length (contents filepath w))%nat →
  gob_decode (gob_encode {[ "fakeip:10.0.0.1" := "host-a" ]})
    = Some {[ "fakeip:10.0.0.1" := "host-a" ]} →
  0 < interval →
  clock w 1%nat ≤ clock w 0%nat + 600 * time.Second →
  ∃ w1 w2,
    Save filepath w = Done None w1 ∧
    contents filepath w1 = gob_encode {[ "fakeip:10.0.0.1" := "host-a" ]} ∧
    (New interval ;;; Reload filepath) w1 = Done 1 w2 ∧
    result ((a <- Get (VString "fakeip:10.0.0.1") ;;
             b <- Get (VString "other:1") ;;
             ret (a, b)) w2)
    = Some (VString "host-a", VNil).
Proof.
  intros Hm Hfs Hroom Hcodec Hinterval Hclock.
  set (snap := ({[ "fakeip:10.0.0.1" := "host-a" ]} : gmap string string)) in *.
  (* Save *)
  assert (Hkeys : string_keys (mapping w)).
  { rewrite Hm. intros k e [[<- _]|[_ [<- _]%lookup_singleton_Some]]%lookup_insert_Some;
      eauto. }
  assert (Hpay : string_payloads (mapping w)).
  { rewrite Hm. intros s e [[_ <-]|[_ [_ <-]%lookup_singleton_Some]]%lookup_insert_Some _;
      simpl; eauto. }
  destruct (Save_run filepath w Hkeys Hpay) as (res & Hres & Hrun).
  assert (res = snap) as ->.
  { apply map_eq. intros s. rewrite Hres, Hm. apply persisted_example. }
  assert (Hsave : Save filepath w =
            Done None
              (set_file filepath (gob_encode snap)
                 (disk_free w + length (contents filepath w) - length (gob_encode snap))
                 (set_file filepath [] (disk_free w + length (contents filepath w)) w))).
  { rewrite Hrun. destruct (fs w !! filepath) as [[|?]|]; [contradiction | |];
      simpl; by rewrite decide_True. }
  (* Reload into a fresh handle *)
  set (w1 := set_file filepath (gob_encode snap) _ _) in Hsave.
  set (w0 := set_janitor Running (set_mapping ∅ w1)).
  assert (Hnew : (New interval ;;; Reload filepath) w1 = Reload filepath w0).
  { unfold bind, New. by rewrite decide_False by lia. }
  assert (Hfile : fs w0 !! filepath = Some (Data (gob_encode snap))).
  { subst w0 w1. simpl. apply lookup_insert_eq. }
  assert (Hitems : map_order snap = [("fakeip:10.0.0.1", "host-a")]).
  { apply Permutation_singleton_r. rewrite (map_order_items snap).
    subst snap. by rewrite map_to_list_singleton. }
  destruct (reload_items_run [("fakeip:10.0.0.1", "host-a")] 0 w0 ltac:(lia))
    as (w2 & Hload & Hclk & _ & _ & _ & Hother & Hloaded).
  exists w1, w2. split; [exact Hsave|].
  split; [apply contents_set_file|].
  rewrite Hnew, (Reload_decoded filepath _ snap w0 Hfile Hcodec), Hitems, Hload.
  split; [reflexivity|].
  specialize (Hloaded (NoDup_singleton _) 0%nat _ _ eq_refl).
  unfold bind at 1. rewrite (Get_live _ _ w2 Hloaded).
  - unfold bind. rewrite Get_absent; [reflexivity|].
    rewrite mapping_tick, Hother; [reflexivity|].
    intros s [= <-]. simpl. intros Hin.
    apply list_elem_of_singleton in Hin. discriminate.
  - rewrite Hclk. simpl. exact Hclock.
Qed.


(** ** [cleanup] *)

Lemma cleanup_entry_string (s : string) (e : element) (w : world) :
  cleanup_entry (VString s) e tt w =
  Done (true, tt)
    (if decide (Expired e < clock w 0%nat)
     then set_mapping (delete (VString s) (mapping w)) (tick w)
     else tick w).
Proof.
  unfold cleanup_entry, bind. simpl.
  destruct (decide (time.Sub _ _ > 0)) as [Hp|Hn];
    destruct (decide (Expired e < _)) as [Hlt|Hge]; try reflexivity.
  - apply Sub_pos in Hp. contradiction.
  - exfalso. apply Hn, Sub_pos, Hlt.
Qed.

Lemma string_or_not (k : value) : (∃ s, k = VString s) ∨ (∀ s, k ≠ VString s).
Proof. destruct k; eauto; right; discriminate. Qed.

Lemma cleanup_entry_panic (k : value) (e : element) (w : world) :
  (∀ s, k ≠ VString s) →
  cleanup_entry k e tt w = Panic (InterfaceConversion k "string").
Proof.
  intros Hk. destruct k; try reflexivity. by destruct (Hk s).
Qed.

(** The sweep reaches every key that is in the mapping: a key that is not a
    string stops it with a panic. *)
Lemma range_cleanup_panics (keys : list value) :
  ∀ w : world,
    (∃ k, k ∈ keys ∧ (∀ s, k ≠ VString s) ∧ is_Some (mapping w !! k)) →
    ∃ k', (∀ s, k' ≠ VString s) ∧
          range_keys cleanup_entry keys tt w = Panic (InterfaceConversion k' "string").
Proof.
  induction keys as [|k0 keys IH]; intros w (kb & Hin & Hbad & Hpresent).
  - by apply elem_of_nil in Hin.
  - rewrite range_keys_cons.
    destruct (mapping w !! k0) as [e0|] eqn:H0.
    + destruct (string_or_not k0) as [[s ->]|Hk0].
      * rewrite cleanup_entry_string. simpl. apply IH. exists kb.
        apply elem_of_cons in Hin as [->|Hin]; [by destruct (Hbad s)|].
        split; [exact Hin|]. split; [exact Hbad|].
        destruct (decide _); simpl; [|exact Hpresent].
        rewrite lookup_delete_ne; [exact Hpresent|]. intros <-. by destruct (Hbad s).
      * exists k0. split; [exact Hk0|]. by rewrite cleanup_entry_panic.
    + apply IH. exists kb.
      apply elem_of_cons in Hin as [->|Hin].
      * rewrite H0 in Hpresent. by destruct Hpresent.
      * auto.
Qed.

(** The sweep over string keys that are all in the mapping: key number [i]
    is checked against reading number [i] of the clock and deleted if that
    reading is past its expiration; no other key is touched. *)
Lemma range_cleanup_strings (keys : list value) :
  ∀ w : world,
    NoDup keys →
    (∀ k, k ∈ keys → (∃ s, k = VString s) ∧ is_Some (mapping w !! k)) →
    ∃ w',
      range_keys cleanup_entry keys tt w = Done tt w' ∧
      (∀ n, clock w' n = clock w (length keys + n)%nat) ∧
      janitor w' = janitor w ∧ fs w' = fs w ∧ disk_free w' = disk_free w ∧
      (∀ k, k ∉ keys → mapping w' !! k = mapping w !! k) ∧
      (∀ i k e, keys !! i = Some k → mapping w !! k = Some e →
         mapping w' !! k =
         if decide (Expired e < clock w i) then None else Some e).
Proof.
  induction keys as [|k0 keys IH]; intros w Hnd Hkeys.
  - exists w. repeat split; try done.
  - apply NoDup_cons in Hnd as [Hk0 Hnd].
    destruct (Hkeys k0) as [[s0 ->] [e0 He0]]; [left|].
    rewrite range_keys_cons, He0, cleanup_entry_string. simpl.
    set (w1 := if decide (Expired e0 < clock w 0%nat) then _ else _).
    assert (Hclock1 : ∀ n, clock w1 n = clock w (S n)).
    { intros n. subst w1. by destruct (decide _). }
    assert (Hmap1 : ∀ k, k ≠ VString s0 → mapping w1 !! k = mapping w !! k).
    { intros k Hne. subst w1. destruct (decide _); simpl; [|reflexivity].
      by apply lookup_delete_ne. }
    assert (Hmap0 : mapping w1 !! VString s0 =
                    if decide (Expired e0 < clock w 0%nat) then None else Some e0).
    { subst w1. destruct (decide _); simpl; [apply lookup_delete_eq | exact He0]. }
    assert (Hrest1 : janitor w1 = janitor w ∧ fs w1 = fs w ∧ disk_free w1 = disk_free w).
    { subst w1. by destruct (decide _). }
    destruct Hrest1 as (Hj1 & Hf1 & Hd1).
    destruct (IH w1 Hnd) as (w' & Hrun & Hclock & Hj & Hf & Hd & Hother & Hswept).
    { intros k Hk. destruct (Hkeys k) as [Hs Hp]; [by right|]. split; [exact Hs|].
      rewrite Hmap1; [exact Hp|]. intros ->. contradiction. }
    exists w'. split; [exact Hrun|].
    split; [|split; [|split; [|split; [|split]]]].
    + intros n. rewrite Hclock, Hclock1. reflexivity.
    + congruence.
    + congruence.
    + congruence.
    + intros k Hk. apply not_elem_of_cons in Hk as [Hne Hk].
      rewrite Hother by exact Hk. by apply Hmap1.
    + intros i k e Hi He. destruct i as [|i]; simpl in Hi.
      * injection Hi as <-. rewrite Hother by exact Hk0.
        rewrite Hmap0. by simplify_eq.
      * assert (Hk : k ∈ keys) by (apply list_elem_of_lookup; eauto).
        assert (Hne : k ≠ VString s0) by (intros ->; contradiction).
        rewrite (Hswept i k e Hi); [by rewrite Hclock1|].
        rewrite Hmap1 by exact Hne. exact He.
Qed.

(** X6. On a store whose keys are all strings the sweep is total, visits every
    entry once, and removes exactly the entries whose expiration has passed
    when they are checked: the entry visited as number [i] is checked against
    reading number [i] of the clock. *)
Lemma cleanup_string_keys (w : world) :
  string_keys (mapping w) →
  ∃ w',
    cleanup w = Done tt w' ∧
    (∀ k e, mapping w !! k = Some e →
       ∃ i, (i < size (mapping w))%nat ∧ sync_order (mapping w) !! i = Some k ∧
            mapping w' !! k =
            if decide (Expired e < clock w i) then None else Some e) ∧
    (∀ k, mapping w !! k = None → mapping w' !! k = None).
Proof.
  intros Hkeys. unfold cleanup, Range.
  destruct (range_cleanup_strings (sync_order (mapping w)) w (sync_order_NoDup _))
    as (w' & Hrun & _ & _ & _ & _ & Hother & Hswept).
  { intros k Hk. apply sync_order_elem in Hk as Hp. destruct Hp as [e He].
    split; [exact (Hkeys k e He) | eauto]. }
  exists w'. split; [exact Hrun|]. split.
  - intros k e He.
    assert (Hin : k ∈ sync_order (mapping w)) by (apply sync_order_elem; eauto).
    apply list_elem_of_lookup in Hin as [i Hi]. exists i.
    split; [|split; [exact Hi | by apply Hswept]].
    rewrite <- sync_order_length. by apply lookup_lt_Some in Hi.
  - intros k Hk. rewrite Hother; [exact Hk|].
    intros [e He]%sync_order_elem. congruence.
Qed.

(** C4. On any store that holds a key that is not a string the sweep panics,
    at the assertion [k.(string)]. *)
Theorem cleanup_panics_on_other_keys (k : value) (e : element) (w : world) :
  mapping w !! k = Some e →
  (∀ s, k ≠ VString s) →
  ∃ k', (∀ s, k' ≠ VString s) ∧
        cleanup w = Panic (InterfaceConversion k' "string").
Proof.
  intros He Hk. unfold cleanup, Range. apply range_cleanup_panics.
  exists k. split; [apply sync_order_elem; eauto|]. split; [exact Hk | eauto].
Qed.


(** ** The janitor *)

Lemma Get_janitor (k : value) (w : world) :
  ∃ v w', Get k w = Done v w' ∧ janitor w' = janitor w.
Proof.
  destruct (mapping w !! k) as [e|] eqn:He.
  - destruct (Z.lt_ge_cases (Expired e) (clock w 0%nat)) as [Hlt|Hge].
    + rewrite (Get_expired k e w He Hlt). eauto.
    + rewrite (Get_live k e w He Hge). eauto.
  - rewrite (Get_absent k w He). eauto.
Qed.

Lemma GetWithExpire_janitor (k : value) (w : world) :
  ∃ r w', GetWithExpire k w = Done r w' ∧ janitor w' = janitor w.
Proof.
  destruct (mapping w !! k) as [e|] eqn:He.
  - destruct (Z.lt_ge_cases (Expired e) (clock w 0%nat)) as [Hlt|Hge].
    + rewrite (GetWithExpire_expired k e w He Hlt). eauto.
    + rewrite (GetWithExpire_live k e w He Hge). eauto.
  - rewrite (GetWithExpire_absent k w He). eauto.
Qed.

(** The calls on the keys that are not found again. *)
Lemma Put_NaN_run (v : value) (ttl : time.Duration) (w : world) :
  Put NaN v ttl w =
  Done tt (set_mapping
             (<[VNaNEntry (next_nan (mapping w)) := Element (clock w 0%nat + ttl) v]>
                (mapping w))
             (tick w)).
Proof. reflexivity. Qed.

Lemma Get_NaN (w : world) : Get NaN w = Done VNil w.
Proof. reflexivity. Qed.

Lemma GetWithExpire_NaN (w : world) :
  GetWithExpire NaN w = Done (VNil, time.zero) w.
Proof. reflexivity. Qed.

Lemma Put_Unhashable (v : value) (ttl : time.Duration) (w : world) :
  Put Unhashable v ttl w = Panic UnhashableKey.
Proof. reflexivity. Qed.

Lemma Get_Unhashable (w : world) : Get Unhashable w = Panic UnhashableKey.
Proof. reflexivity. Qed.

Lemma GetWithExpire_Unhashable (w : world) :
  GetWithExpire Unhashable w = Panic UnhashableKey.
Proof. reflexivity. Qed.

(** A call on a key that can be hashed returns and does not change the
    janitor's status. *)
Lemma step_call_hashable (a : action) (w : world) :
  is_call a = true → hashable_step a →
  ∃ r w', step a w = Done r w' ∧ janitor w' = janitor w.
Proof.
  destruct a as [ev|k v ttl|k|k]; intros Hcall Hk; try discriminate;
    unfold step, bind; destruct k as [k| |]; try (by destruct Hk).
  - rewrite Put_run. eauto.
  - rewrite Put_NaN_run. eauto.
  - destruct (Get_janitor k w) as (v & w' & -> & Hj). eauto.
  - rewrite Get_NaN. eauto.
  - destruct (GetWithExpire_janitor k w) as (r & w' & -> & Hj). eauto.
  - rewrite GetWithExpire_NaN. eauto.
Qed.

(** A call never waits, and if it returns it has not changed the janitor's
    status. *)
Lemma step_call (a : action) (w : world) :
  is_call a = true →
  step a w ≠ Blocked ∧
  ∀ r w', step a w = Done r w' → janitor w' = janitor w.
Proof.
  intros Hcall. destruct a as [ev|k v ttl|k|k]; try discriminate.
  - destruct k as [k| |]; [| |by split].
    + destruct (step_call_hashable (CallPut k v ttl) w eq_refl) as (r & w' & Hs & Hj);
        [discriminate|].
      rewrite Hs. split; [discriminate|]. by intros ?? [= _ <-].
    + destruct (step_call_hashable (CallPut NaN v ttl) w eq_refl) as (r & w' & Hs & Hj);
        [discriminate|].
      rewrite Hs. split; [discriminate|]. by intros ?? [= _ <-].
  - destruct k as [k| |]; [| |by split].
    + destruct (step_call_hashable (CallGet k) w eq_refl) as (r & w' & Hs & Hj);
        [discriminate|].
      rewrite Hs. split; [discriminate|]. by intros ?? [= _ <-].
    + destruct (step_call_hashable (CallGet NaN) w eq_refl) as (r & w' & Hs & Hj);
        [discriminate|].
      rewrite Hs. split; [discriminate|]. by intros ?? [= _ <-].
  - destruct k as [k| |]; [| |by split].
    + destruct (step_call_hashable (CallGetWithExpire k) w eq_refl)
        as (r & w' & Hs & Hj); [discriminate|].
      rewrite Hs. split; [discriminate|]. by intros ?? [= _ <-].
    + destruct (step_call_hashable (CallGetWithExpire NaN) w eq_refl)
        as (r & w' & Hs & Hj); [discriminate|].
      rewrite Hs. split; [discriminate|]. by intros ?? [= _ <-].
Qed.

(** Once [process] has returned, no event reaches it. *)
Lemma deliver_returned (ev : event) (w : world) :
  janitor w = Returned → deliver ev w = Done tt w.
Proof. intros H. unfold deliver. by rewrite H. Qed.

Lemma deliver_stop (w : world) :
  ∃ w', deliver StopSignal w = Done tt w' ∧
        janitor w' = Returned ∧ mapping w' = mapping w.
Proof.
  unfold deliver. destruct (janitor w) eqn:Hj; simpl; eauto.
Qed.

(** The loop stops at the first stop signal: what follows is not received. *)
Lemma process_until_stop (pre post : list event) :
  ∀ w, process (pre ++ StopSignal :: post) w = process (pre ++ [StopSignal]) w.
Proof.
  induction pre as [|ev pre IH]; intros w; [reflexivity|].
  cbn [app process]. unfold bind.
  destruct (process_select ev w) as [[] w'|p|]; [apply IH | reflexivity..].
Qed.

Lemma run_cons (a : action) (tr : list action) (w : world) :
  run (a :: tr) w =
  match step a w with
  | Done r w' =>
      match run tr w' with
      | Done rs w'' => Done (option_list r ++ rs) w''
      | Panic p => Panic p
      | Blocked => Blocked
      end
  | Panic p => Panic p
  | Blocked => Blocked
  end.
Proof. reflexivity. Qed.

Lemma step_janitor (ev : event) (w : world) :
  step (Janitor ev) w =
  match deliver ev w with
  | Done _ w' => Done None w'
  | Panic p => Panic p
  | Blocked => Blocked
  end.
Proof. reflexivity. Qed.

(** With the janitor returned, a trace runs as its calls alone do. *)
Lemma run_returned (tr : list action) :
  ∀ w, janitor w = Returned → run tr w = run (List.filter is_call tr) w.
Proof.
  induction tr as [|a tr IH]; intros w Hj; [reflexivity|].
  destruct (is_call a) eqn:Hcall.
  - cbn [List.filter]. rewrite Hcall, !run_cons.
    destruct (step_call a w Hcall) as [_ Hj'].
    destruct (step a w) as [r w'|p|]; [|reflexivity..].
    rewrite (IH w'); [reflexivity|]. rewrite (Hj' r w' eq_refl). exact Hj.
  - cbn [List.filter]. rewrite Hcall, run_cons.
    destruct a as [ev| | |]; try discriminate.
    rewrite step_janitor, (deliver_returned ev w Hj), <- (IH w Hj).
    by destruct (run tr w).
Qed.

(** A sweep that completes leaves the janitor's status alone. *)
Lemma range_cleanup_janitor (keys : list value) :
  ∀ w u w', range_keys cleanup_entry keys tt w = Done u w' → janitor w' = janitor w.
Proof.
  induction keys as [|k keys IH]; intros w u w'.
  - intros [= _ <-]. reflexivity.
  - rewrite range_keys_cons. destruct (mapping w !! k) as [e|]; [|apply IH].
    destruct (string_or_not k) as [[s ->]|Hk].
    + rewrite cleanup_entry_string. simpl. intros H%IH. rewrite H.
      by destruct (decide _).
    + by rewrite cleanup_entry_panic.
Qed.

Lemma run_janitor_returned (events : list event) (w : world) :
  janitor w = Returned → run (map Janitor events) w = Done [] w.
Proof.
  intros Hj. rewrite (run_returned _ w Hj).
  replace (List.filter is_call (map Janitor events)) with (@nil action);
    [reflexivity|].
  induction events as [|ev events IH]; [reflexivity | exact IH].
Qed.

(** The loop and the state machine agree: [process] on a list of events is
    the delivery of these events, one after the other, to a janitor in its
    loop. *)
Lemma process_deliver (events : list event) :
  ∀ w, janitor w = Running →
       process events w = (run (map Janitor events) ;;; ret tt) w.
Proof.
  induction events as [|ev events IH]; intros w Hj; [reflexivity|].
  cbn [map process]. unfold bind at 1 2. rewrite run_cons, step_janitor.
  unfold deliver. rewrite Hj. unfold bind at 1.
  destruct ev.
  - unfold process_select, bind.
    destruct (cleanup w) as [u w1|p|] eqn:Hsweep; [|reflexivity..].
    simpl. rewrite (IH w1).
    + unfold bind. by destruct (run (map Janitor events) w1).
    + unfold cleanup, Range in Hsweep. apply range_cleanup_janitor in Hsweep.
      congruence.
  - simpl. by rewrite run_janitor_returned.
Qed.

(** C9. The loop of [process] stops at the stop signal: the events that come
    after it are not received, so no sweep follows. In any trace of the
    system, what comes after the delivery of the stop signal runs as if the
    janitor received nothing more: its later events (ticks included) change
    neither the state nor any answer. And in a state where the janitor has
    returned, [Get] evicts lazily as ever: for a key with element [e], past
    the expiration it deletes the key and returns nil, otherwise it returns
    the payload. *)
Theorem no_sweep_after_stop (pre post : list action) (w : world) :
  (∀ before after w', process (before ++ StopSignal :: after) w'
                      = process (before ++ [StopSignal]) w') ∧
  run (pre ++ Janitor StopSignal :: post) w =
  run (pre ++ Janitor StopSignal :: List.filter is_call post) w ∧
  (∀ w', janitor w' = Returned → deliver Tick w' = Done tt w') ∧
  (∀ (k : value) e w', janitor w' = Returned → mapping w' !! k = Some e →
     (Expired e < clock w' 0%nat →
        Get k w' = Done VNil (set_mapping (delete k (mapping w')) (tick w'))) ∧
     (clock w' 0%nat ≤ Expired e → Get k w' = Done (Payload e) (tick w'))).
Proof.
  split; [|split; [|split]].
  - intros before after w'. apply process_until_stop.
  - revert w. induction pre as [|a pre IH]; intros w.
    + cbn [app]. rewrite !run_cons, step_janitor.
      destruct (deliver_stop w) as (w' & -> & Hj & _).
      by rewrite (run_returned post w' Hj).
    + cbn [app]. rewrite !run_cons.
      destruct (step a w) as [r w'|p|]; [|reflexivity..].
      by rewrite (IH w').
  - intros w' Hj. by apply deliver_returned.
  - intros k e w' _ He. split; [apply Get_expired | apply Get_live]; exact He.
Qed.


(** * Further properties *)

(** ** [Put] and the reads *)

Lemma next_nan_above (keys : list value) (n : nat) :
  VNaNEntry n ∈ keys →
  (n < foldr (λ k acc, match k with
                       | VNaNEntry n => Nat.max (S n) acc
                       | _ => acc
                       end) 0 keys)%nat.
Proof.
  induction keys as [|k keys IH]; intros Hin; [by apply elem_of_nil in Hin|].
  apply elem_of_cons in Hin as [<-|Hin]; simpl; [lia|].
  specialize (IH Hin). destruct k; lia.
Qed.

(** The key that [Store] takes for a NaN is not in the mapping. *)
Lemma next_nan_fresh (m : gmap value element) :
  m !! VNaNEntry (next_nan m) = None.
Proof.
  destruct (m !! VNaNEntry (next_nan m)) as [e|] eqn:He; [|reflexivity].
  exfalso. assert (Hin : VNaNEntry (next_nan m) ∈ (map_to_list m).*1).
  { apply list_elem_of_fmap. exists (VNaNEntry (next_nan m), e).
    split; [reflexivity | by apply elem_of_map_to_list]. }
  apply next_nan_above in Hin. unfold next_nan in Hin at 1. lia.
Qed.

(** X1. [Put(k, v, t)] followed by [Get(k)], whatever the time between them and
    whatever the sign of [t]. For a key that the map finds again, [Get]
    returns [v] exactly when its clock reading is not past the reading of
    [Put] plus [t] (the expiration instant itself is still inside), and
    otherwise returns nil and removes the key. For a NaN, [Get] returns nil
    whatever the clock, and the entry that [Put] added stays. For a key that
    cannot be hashed, [Put] panics. *)
Theorem Put_Get_at_any_time (k : iface) (v : value) (t : time.Duration) (w : world) :
  match k with
  | Comparable c =>
      result ((Put (Comparable c) v t ;;; Get (Comparable c)) w)
      = Some (if decide (clock w 1%nat ≤ clock w 0%nat + t) then v else VNil) ∧
      mapping <$> final ((Put (Comparable c) v t ;;; Get (Comparable c)) w)
      = Some (if decide (clock w 1%nat ≤ clock w 0%nat + t)
              then <[c := Element (clock w 0%nat + t) v]> (mapping w)
              else delete c (mapping w))
  | NaN =>
      result ((Put NaN v t ;;; Get NaN) w) = Some VNil ∧
      mapping <$> final ((Put NaN v t ;;; Get NaN) w)
      = Some (<[VNaNEntry (next_nan (mapping w)) := Element (clock w 0%nat + t) v]>
                (mapping w)) ∧
      mapping w !! VNaNEntry (next_nan (mapping w)) = None
  | Unhashable =>
      (Put Unhashable v t ;;; Get Unhashable) w = Panic UnhashableKey
  end.
Proof.
  destruct k as [c| |].
  - destruct (decide _) as [Hle|Hgt].
    + rewrite Put_Get_within by exact Hle. split; reflexivity.
    + unfold bind. rewrite Put_run.
      rewrite (Get_expired c (Element (clock w 0%nat + t) v));
        [| apply lookup_insert_eq | simpl; lia].
      split; [reflexivity|]. simpl. f_equal. apply delete_insert_eq.
  - split; [reflexivity|]. split; [reflexivity | apply next_nan_fresh].
  - reflexivity.
Qed.

(** X2. A second [Put] on the same key. For a key that the map finds again it
    replaces the element: the payload is the new one and the time to live
    runs from the second [Put], whatever the first one gave. For a NaN it
    adds a second entry, and [Get] finds neither. For a key that cannot be
    hashed the first [Put] panics. *)
Theorem Put_replaces (k : iface) (v1 v2 : value) (t1 t2 : time.Duration)
    (w : world) :
  match k with
  | Comparable c =>
      mapping <$> final ((Put (Comparable c) v1 t1 ;;; Put (Comparable c) v2 t2) w)
      = Some (<[c := Element (clock w 1%nat + t2) v2]> (mapping w)) ∧
      result ((Put (Comparable c) v1 t1 ;;; Put (Comparable c) v2 t2 ;;;
               Get (Comparable c)) w)
      = Some (if decide (clock w 2%nat ≤ clock w 1%nat + t2) then v2 else VNil)
  | NaN =>
      size <$> (mapping <$> final ((Put NaN v1 t1 ;;; Put NaN v2 t2) w))
      = Some (S (S (size (mapping w)))) ∧
      result ((Put NaN v1 t1 ;;; Put NaN v2 t2 ;;; Get NaN) w) = Some VNil
  | Unhashable =>
      (Put Unhashable v1 t1 ;;; Put Unhashable v2 t2) w = Panic UnhashableKey
  end.
Proof.
  destruct k as [c| |].
  - split.
    + unfold bind. rewrite !Put_run. simpl. f_equal. apply insert_insert_eq.
    + unfold bind. rewrite !Put_run.
      set (w2 := set_mapping _ (tick (set_mapping _ (tick w)))).
      assert (He : mapping w2 !! c = Some (Element (clock w 1%nat + t2) v2))
        by apply lookup_insert_eq.
      destruct (decide _) as [Hle|Hgt].
      * by rewrite (Get_live c _ w2 He).
      * rewrite (Get_expired c _ w2 He); [reflexivity | simpl; lia].
  - split; [|reflexivity].
    unfold bind. rewrite !Put_NaN_run. simpl. f_equal.
    rewrite !map_size_insert_None; [reflexivity | apply next_nan_fresh..].
  - reflexivity.
Qed.

(** X3. [Get] panics on a key that cannot be hashed, and on no other key. On a
    NaN it finds nothing: it returns nil and changes nothing. On a key that
    the map finds again it leaves every other key, the janitor and the files
    alone, and changes its own key only by removing an element whose
    expiration the clock has passed. *)
Theorem Get_touches_only_its_key (k : iface) (w : world) :
  match k with
  | Comparable c =>
      ∃ v w',
        Get (Comparable c) w = Done v w' ∧
        (∀ k', k' ≠ c → mapping w' !! k' = mapping w !! k') ∧
        (mapping w' !! c = mapping w !! c ∨
         (mapping w' !! c = None ∧
          ∃ e, mapping w !! c = Some e ∧ Expired e < clock w 0%nat)) ∧
        janitor w' = janitor w ∧ fs w' = fs w
  | NaN => Get NaN w = Done VNil w
  | Unhashable => Get Unhashable w = Panic UnhashableKey
  end.
Proof.
  destruct k as [c| |]; [|reflexivity..].
  destruct (mapping w !! c) as [e|] eqn:He.
  - destruct (Z.lt_ge_cases (Expired e) (clock w 0%nat)) as [Hlt|Hge].
    + rewrite (Get_expired c e w He Hlt). eexists _, _. split; [reflexivity|].
      simpl. split; [|split; [|done]].
      * intros k' Hne. by apply lookup_delete_ne.
      * right. split; [apply lookup_delete_eq | eauto].
    + rewrite (Get_live c e w He Hge). eexists _, _. split; [reflexivity|].
      simpl. rewrite He. auto.
  - rewrite (Get_absent c w He). eexists _, _. split; [reflexivity|].
    rewrite He. auto.
Qed.

(** X4. Once the clock is past the expiration that [Put] gave to a key that the
    map finds again, [Get] returns nil and removes the key, and a
    [GetWithExpire] that follows finds the key absent: it returns nil and the
    zero time without reading the clock. For a NaN the two reads return the
    same, but they read no clock and the entry stays; for a key that cannot
    be hashed, [Put] panics. *)
Theorem reads_after_expiry (k : iface) (v : value) (t : time.Duration) (w : world) :
  clock w 0%nat + t < clock w 1%nat →
  match k with
  | Comparable c =>
      ∃ w',
        (Put (Comparable c) v t ;;;
         a <- Get (Comparable c) ;; b <- GetWithExpire (Comparable c) ;; ret (a, b)) w
        = Done (VNil, (VNil, time.zero)) w' ∧
        mapping w' = delete c (mapping w) ∧
        (∀ n, clock w' n = clock w (2 + n)%nat)
  | NaN =>
      ∃ w',
        (Put NaN v t ;;; a <- Get NaN ;; b <- GetWithExpire NaN ;; ret (a, b)) w
        = Done (VNil, (VNil, time.zero)) w' ∧
        mapping w' =
          <[VNaNEntry (next_nan (mapping w)) := Element (clock w 0%nat + t) v]>
            (mapping w) ∧
        (∀ n, clock w' n = clock w (1 + n)%nat)
  | Unhashable =>
      (Put Unhashable v t ;;;
       a <- Get Unhashable ;; b <- GetWithExpire Unhashable ;; ret (a, b)) w
      = Panic UnhashableKey
  end.
Proof.
  intros Hpast. destruct k as [c| |].
  - unfold bind at 1. rewrite Put_run.
    set (w1 := set_mapping _ (tick w)).
    assert (He : mapping w1 !! c = Some (Element (clock w 0%nat + t) v))
      by apply lookup_insert_eq.
    unfold bind at 1. rewrite (Get_expired c _ w1 He) by (simpl; lia).
    set (w2 := set_mapping _ (tick w1)).
    assert (Hgone : mapping w2 !! c = None) by apply lookup_delete_eq.
    unfold bind. rewrite (GetWithExpire_absent c w2 Hgone).
    exists w2. split; [reflexivity|]. split; [|reflexivity].
    subst w2 w1. simpl. apply delete_insert_eq.
  - eexists. split; [reflexivity|]. split; reflexivity.
  - reflexivity.
Qed.

(** X5. [GetWithExpire] looks up and evicts as [Get] does: on the same state the
    two return the same payload and leave the same state; and a payload that
    is not nil comes with the expiration of its element, which the clock has
    not passed. *)
Theorem GetWithExpire_agrees_with_Get (k : value) (w : world) :
  ∃ v t w',
    GetWithExpire k w = Done (v, t) w' ∧
    Get k w = Done v w' ∧
    (v ≠ VNil → mapping w !! k = Some (Element t v) ∧ clock w 0%nat ≤ t).
Proof.
  destruct (mapping w !! k) as [e|] eqn:He.
  - destruct (Z.lt_ge_cases (Expired e) (clock w 0%nat)) as [Hlt|Hge].
    + rewrite (GetWithExpire_expired k e w He Hlt), (Get_expired k e w He Hlt).
      eexists _, _, _. split; [reflexivity|]. split; [reflexivity|]. done.
    + rewrite (GetWithExpire_live k e w He Hge), (Get_live k e w He Hge).
      eexists _, _, _. split; [reflexivity|]. split; [reflexivity|].
      intros _. split; [by destruct e | exact Hge].
  - rewrite (GetWithExpire_absent k w He), (Get_absent k w He).
    eexists _, _, _. split; [reflexivity|]. split; [reflexivity|]. done.
Qed.


(** ** The sweep on string keys *)

(** The sweep on a store whose keys are all strings, with what it leaves of
    the state: one clock reading per entry, nothing else changed. *)
Lemma cleanup_run (w : world) :
  string_keys (mapping w) →
  ∃ w',
    cleanup w = Done tt w' ∧
    (∀ n, clock w' n = clock w (size (mapping w) + n)%nat) ∧
    janitor w' = janitor w ∧ fs w' = fs w ∧ disk_free w' = disk_free w ∧
    (∀ k e, mapping w !! k = Some e →
       ∃ i, (i < size (mapping w))%nat ∧
            mapping w' !! k =
            if decide (Expired e < clock w i) then None else Some e) ∧
    (∀ k, mapping w !! k = None → mapping w' !! k = None).
Proof.
  intros Hkeys. unfold cleanup, Range.
  destruct (range_cleanup_strings (sync_order (mapping w)) w (sync_order_NoDup _))
    as (w' & Hrun & Hclock & Hj & Hf & Hd & Hother & Hswept).
  { intros k Hk. apply sync_order_elem in Hk as Hp. destruct Hp as [e He].
    split; [exact (Hkeys k e He) | eauto]. }
  rewrite sync_order_length in Hclock.
  exists w'. repeat (split; [done|]). split.
  - intros k e He.
    assert (Hin : k ∈ sync_order (mapping w)) by (apply sync_order_elem; eauto).
    apply list_elem_of_lookup in Hin as [i Hi]. exists i.
    split; [|by apply Hswept].
    rewrite <- sync_order_length. by apply lookup_lt_Some in Hi.
  - intros k Hk. rewrite Hother; [exact Hk|].
    intros [e He]%sync_order_elem. congruence.
Qed.

(** The sweep only removes: what it leaves was there. *)
Lemma cleanup_sub (w w' : world) :
  string_keys (mapping w) → cleanup w = Done tt w' →
  ∀ k e, mapping w' !! k = Some e → mapping w !! k = Some e.
Proof.
  intros Hkeys Hrun k e He.
  destruct (cleanup_run w Hkeys) as (w'' & Hrun' & _ & _ & _ & _ & Hswept & Habsent).
  rewrite Hrun in Hrun'. injection Hrun' as <-.
  destruct (mapping w !! k) as [e0|] eqn:H0.
  - destruct (Hswept k e0 H0) as (i & _ & Hk). rewrite He in Hk.
    destruct (decide _); congruence.
  - rewrite (Habsent k H0) in He. discriminate.
Qed.

(** X7. With the clock standing at [now], the sweep of a store whose keys are
    all strings leaves exactly the entries whose expiration [now] has not
    passed. *)
Theorem cleanup_at_standing_clock (now : time.Time) (w : world) :
  string_keys (mapping w) →
  standing w now →
  ∃ w',
    cleanup w = Done tt w' ∧
    mapping w' = filter (λ kv, now ≤ Expired kv.2) (mapping w) ∧
    standing w' now.
Proof.
  intros Hkeys Hnow.
  destruct (cleanup_run w Hkeys) as (w' & Hrun & Hclock & _ & _ & _ & Hswept & Habsent).
  exists w'. split; [exact Hrun|]. split.
  - apply map_eq. intros k. destruct (mapping w !! k) as [e|] eqn:He.
    + destruct (Hswept k e He) as (i & _ & ->). rewrite (Hnow i).
      destruct (decide (Expired e < now)) as [Hlt|Hge]; symmetry.
      * apply map_lookup_filter_None_2. right. intros x Hx. simplify_eq. simpl. lia.
      * apply map_lookup_filter_Some_2; [exact He | simpl; lia].
    + rewrite (Habsent k He). symmetry. apply map_lookup_filter_None_2. by left.
  - intros n. rewrite Hclock. apply Hnow.
Qed.

(** X8. With the clock standing, a second sweep finds nothing to remove: it
    leaves the store as the first one did. *)
Theorem cleanup_twice (now : time.Time) (w : world) :
  string_keys (mapping w) →
  standing w now →
  ∃ w1 w2,
    cleanup w = Done tt w1 ∧ cleanup w1 = Done tt w2 ∧
    mapping w2 = mapping w1.
Proof.
  intros Hkeys Hnow.
  destruct (cleanup_run w Hkeys) as (w1 & Hrun1 & Hclock1 & _ & _ & _ & Hswept1 & _).
  assert (Hkeys1 : string_keys (mapping w1)).
  { intros k e He. apply (Hkeys k e). by apply (cleanup_sub w w1). }
  destruct (cleanup_run w1 Hkeys1) as (w2 & Hrun2 & _ & _ & _ & _ & Hswept2 & Habsent2).
  exists w1, w2. split; [exact Hrun1|]. split; [exact Hrun2|].
  apply map_eq. intros k. destruct (mapping w1 !! k) as [e|] eqn:He.
  - destruct (Hswept2 k e He) as (i & _ & ->).
    rewrite Hclock1, (Hnow _).
    destruct (decide (Expired e < now)) as [Hlt|Hge]; [|reflexivity].
    exfalso. assert (He0 : mapping w !! k = Some e) by by apply (cleanup_sub w w1).
    destruct (Hswept1 k e He0) as (j & _ & Hk). rewrite He, (Hnow j) in Hk.
    by rewrite decide_True in Hk.
  - by apply Habsent2.
Qed.

(** X9. The sweep is not seen by a reader: on a store whose keys are all strings
    and with a clock that does not go back, [Get] after a sweep returns what
    it would have returned, at the same clock reading, had the sweep not
    taken place. *)
Theorem cleanup_unseen_by_Get (k : value) (w : world) :
  string_keys (mapping w) →
  nondecreasing w →
  result ((cleanup ;;; Get k) w)
  = result (Get k (set_clock (λ n, clock w (size (mapping w) + n)%nat) w)).
Proof.
  intros Hkeys Hmono.
  destruct (cleanup_run w Hkeys) as (w' & Hrun & Hclock & _ & _ & _ & Hswept & Habsent).
  unfold bind. rewrite Hrun.
  set (wr := set_clock _ w).
  assert (Hnow : clock w' 0%nat = clock wr 0%nat) by (rewrite Hclock; reflexivity).
  destruct (mapping w !! k) as [e|] eqn:He.
  - assert (Her : mapping wr !! k = Some e) by exact He.
    destruct (Hswept k e He) as (i & Hi & Hk).
    destruct (decide (Expired e < clock w i)) as [Hlt|Hge].
    + rewrite (Get_absent k w' Hk).
      rewrite (Get_expired k e wr Her); [reflexivity|].
      rewrite <- Hnow, Hclock.
      assert (clock w i ≤ clock w (size (mapping w) + 0)%nat) by (apply Hmono; lia).
      lia.
    + destruct (Z.lt_ge_cases (Expired e) (clock w' 0%nat)) as [Hlt'|Hge'].
      * rewrite (Get_expired k e w' Hk Hlt').
        rewrite (Get_expired k e wr Her); [reflexivity | by rewrite <- Hnow].
      * rewrite (Get_live k e w' Hk Hge').
        rewrite (Get_live k e wr Her); [reflexivity | by rewrite <- Hnow].
  - rewrite (Get_absent k w' (Habsent k He)).
    by rewrite (Get_absent k wr He).
Qed.


(** ** Traces of the system *)

(** A read only removes: what it leaves was there. *)
Lemma Get_sub (k : value) (w : world) :
  ∃ v w', Get k w = Done v w' ∧
          ∀ k' e, mapping w' !! k' = Some e → mapping w !! k' = Some e.
Proof.
  destruct (mapping w !! k) as [e|] eqn:He.
  - destruct (Z.lt_ge_cases (Expired e) (clock w 0%nat)) as [Hlt|Hge].
    + rewrite (Get_expired k e w He Hlt). eexists _, _. split; [reflexivity|].
      simpl. intros k' e' [_ H]%lookup_delete_Some. exact H.
    + rewrite (Get_live k e w He Hge). eexists _, _. split; [reflexivity|]. done.
  - rewrite (Get_absent k w He). eexists _, _. split; [reflexivity|]. done.
Qed.

Lemma GetWithExpire_sub (k : value) (w : world) :
  ∃ r w', GetWithExpire k w = Done r w' ∧
          ∀ k' e, mapping w' !! k' = Some e → mapping w !! k' = Some e.
Proof.
  destruct (mapping w !! k) as [e|] eqn:He.
  - destruct (Z.lt_ge_cases (Expired e) (clock w 0%nat)) as [Hlt|Hge].
    + rewrite (GetWithExpire_expired k e w He Hlt). eexists _, _.
      split; [reflexivity|].
      simpl. intros k' e' [_ H]%lookup_delete_Some. exact H.
    + rewrite (GetWithExpire_live k e w He Hge). eexists _, _.
      split; [reflexivity|]. done.
  - rewrite (GetWithExpire_absent k w He). eexists _, _. split; [reflexivity|]. done.
Qed.

(** One step from a store of string keys, if it puts no other key and passes
    no key that cannot be hashed: it returns and the keys are still
    strings. *)
Lemma step_string_keys (a : action) (w : world) :
  string_keys (mapping w) → string_step a →
  ∃ r w', step a w = Done r w' ∧ string_keys (mapping w').
Proof.
  intros Hkeys Hstep. destruct a as [ev|k v ttl|k|k]; unfold step, bind.
  - simpl in Hstep. subst ev. unfold deliver. destruct (janitor w); [|eauto].
    unfold process_select, bind.
    destruct (cleanup_run w Hkeys) as (w' & Hrun & _). rewrite Hrun.
    eexists _, _. split; [reflexivity|].
    intros k e He. apply (Hkeys k e). by apply (cleanup_sub w w').
  - destruct Hstep as [s ->]. rewrite Put_run.
    eexists _, _. split; [reflexivity|]. simpl.
    intros k e [[<- _]|[_ He]]%lookup_insert_Some; eauto.
  - destruct k as [k| |]; [| |by destruct Hstep].
    + destruct (Get_sub k w) as (v & w' & -> & Hsub). eexists _, _.
      split; [reflexivity|]. intros k' e He. apply (Hkeys k' e). by apply Hsub.
    + rewrite Get_NaN. eauto.
  - destruct k as [k| |]; [| |by destruct Hstep].
    + destruct (GetWithExpire_sub k w) as (r & w' & -> & Hsub). eexists _, _.
      split; [reflexivity|]. intros k' e He. apply (Hkeys k' e). by apply Hsub.
    + rewrite GetWithExpire_NaN. eauto.
Qed.

(** X10. As long as every key put is a string and no key passed is of a type
    that cannot be hashed, nothing panics: from a store whose keys are all
    strings, any trace of such calls and of ticks of the janitor (with their
    sweeps) runs to its end, and the keys are still all strings. *)
Theorem string_keys_never_panic (tr : list action) (w : world) :
  string_keys (mapping w) →
  Forall string_step tr →
  ∃ rs w', run tr w = Done rs w' ∧ string_keys (mapping w').
Proof.
  revert w. induction tr as [|a tr IH]; intros w Hkeys Hsteps.
  - exists [], w. split; [reflexivity | exact Hkeys].
  - apply Forall_cons in Hsteps as [Hstep Hsteps]. rewrite run_cons.
    destruct (step_string_keys a w Hkeys Hstep) as (r & w1 & -> & Hkeys1).
    destruct (IH w1 Hkeys1 Hsteps) as (rs & w' & -> & Hkeys').
    eauto.
Qed.

(** X11. Once the janitor has returned, the cache stays usable and no sweep can
    panic any more, whatever the keys in the store (strings or not, entries
    under a NaN included): any trace of calls on keys that can be hashed and
    of ticks runs to its end, and the janitor stays returned. *)
Theorem returned_never_panics (tr : list action) (w : world) :
  janitor w = Returned →
  Forall hashable_step tr →
  ∃ rs w', run tr w = Done rs w' ∧ janitor w' = Returned.
Proof.
  revert w. induction tr as [|a tr IH]; intros w Hj Hsteps.
  - exists [], w. split; [reflexivity | exact Hj].
  - apply Forall_cons in Hsteps as [Hstep Hsteps].
    rewrite run_cons. destruct (is_call a) eqn:Hcall.
    + destruct (step_call_hashable a w Hcall Hstep) as (r & w1 & -> & Hj1).
      destruct (IH w1) as (rs & w' & -> & Hj'); [congruence | exact Hsteps |].
      eauto.
    + destruct a as [ev| | |]; try discriminate.
      rewrite step_janitor, (deliver_returned ev w Hj).
      destruct (IH w Hj Hsteps) as (rs & w' & -> & Hj'). eauto.
Qed.

(** ** [Save] and [Reload], further *)

Lemma save_entry_cases (k : value) (e : element) (res : gmap string string) (w : world) :
  (faulty_entry k e ∧ ∃ p, save_entry k e res w = Panic p) ∨
  (¬ faulty_entry k e ∧ ∃ res', save_entry k e res w = Done (true, res') w).
Proof.
  destruct (string_or_not k) as [[s ->]|Hk].
  - unfold save_entry, bind. simpl.
    destruct (HasPrefix s "fakeip:") eqn:Hpre.
    + destruct (Payload e) as [|b|z|x|n] eqn:Hp; simpl;
        try (left; split; [right; exists s; repeat split; [exact Hpre | congruence] | eauto]).
      right. split; [|eauto].
      intros [Hns|(s' & [= <-] & _ & Hx)]; [by destruct (Hns s) | by destruct (Hx x)].
    + right. split; [|eauto].
      intros [Hns|(s' & [= <-] & Hpre' & _)]; [by destruct (Hns s) | congruence].
  - left. split; [by left|]. destruct k; eauto. by destruct (Hk s).
Qed.

(** The iteration of [Save] reaches every key in the mapping: an entry on
    which an assertion fails stops it with a panic. *)
Lemma range_save_panics (w : world) (keys : list value) :
  ∀ acc,
    (∃ k e, k ∈ keys ∧ mapping w !! k = Some e ∧ faulty_entry k e) →
    ∃ p, range_keys save_entry keys acc w = Panic p.
Proof.
  induction keys as [|k0 keys IH]; intros acc (k & e & Hin & He & Hbad).
  - by apply elem_of_nil in Hin.
  - rewrite range_keys_cons.
    destruct (mapping w !! k0) as [e0|] eqn:H0.
    + destruct (save_entry_cases k0 e0 acc w) as [[_ [p ->]]|[Hgood [res' ->]]];
        [eauto|].
      simpl. apply IH. exists k, e.
      apply elem_of_cons in Hin as [->|Hin]; [|done].
      rewrite H0 in He. injection He as ->. contradiction.
    + apply IH. exists k, e.
      apply elem_of_cons in Hin as [->|Hin]; [congruence | done].
Qed.

(** X13. [Save] creates the file before it looks at the store. On a path that
    cannot be created it returns the error and changes nothing, whatever the
    store holds; on any other path, an entry whose key is not a string, or
    whose key has the prefix and whose payload is not a string, makes it
    panic, wherever the entry comes in the iteration. *)
Theorem Save_faults_after_create (filepath : string) (k : value) (e : element)
    (w : world) :
  mapping w !! k = Some e →
  faulty_entry k e →
  (fs w !! filepath = Some Locked → Save filepath w = Done (Some ErrCreate) w) ∧
  (fs w !! filepath ≠ Some Locked → ∃ p, Save filepath w = Panic p).
Proof.
  intros He Hbad. split; intros Hfs.
  - unfold Save, bind, os_Create. by rewrite Hfs.
  - unfold Save, bind at 1, os_Create.
    set (w1 := set_file filepath [] _ w).
    assert (Hc : match fs w !! filepath with
                 | Some Locked => Done (inr ErrCreate) w
                 | _ => Done (inl filepath) w1
                 end = Done (inl filepath) w1).
    { destruct (fs w !! filepath) as [[|?]|]; [contradiction | done | done]. }
    rewrite Hc. unfold bind at 1, Range.
    destruct (range_save_panics w1 (sync_order (mapping w1)) ∅) as [p ->]; [|eauto].
    exists k, e. split; [apply sync_order_elem; eauto | auto].
Qed.

(** X14. The round trip on any store that meets the assertions of [Save]: after
    [Save] and [Reload] into a new handle, the store holds the entries that
    were under a key with the prefix, with their payloads, each with 600
    seconds to live from its own clock reading, and nothing else; the count
    returned is their number (as a [uint32]). [res] names the map that [Save]
    encodes. *)
Theorem Save_Reload_restores (filepath : string) (interval : time.Duration)
    (res : gmap string string) (w : world) :
  string_keys (mapping w) → string_payloads (mapping w) →
  (∀ s, res !! s = persisted (mapping w) s) →
  fs w !! filepath ≠ Some Locked →
  (length (gob_encode res) ≤ disk_free w + length (contents filepath w))%nat →
  gob_decode (gob_encode res) = Some res →
  0 < interval →
  ∃ w1 w2,
    Save filepath w = Done None w1 ∧
    (New interval ;;; Reload filepath) w1 = Done (uint32 (Z.of_nat (size res))) w2 ∧
    (∀ s x, HasPrefix s "fakeip:" = true →
            (∃ e, mapping w !! VString s = Some e ∧ Payload e = VString x) →
       ∃ i, (i < size res)%nat ∧
            mapping w2 !! VString s =
            Some (Element (clock w i + 600 * time.Second) (VString x))) ∧
    (∀ key, (∀ s, key = VString s → HasPrefix s "fakeip:" = true →
                  mapping w !! key = None) →
            mapping w2 !! key = None).
Proof.
  intros Hkeys Hpay Hres Hfs Hroom Hcodec Hinterval.
  destruct (Save_then_Reload filepath interval w Hkeys Hpay Hfs Hinterval)
    as (res' & Hres' & Hrt).
  assert (res' = res) as ->.
  { apply map_eq. intros s. by rewrite Hres, Hres'. }
  destruct (Hrt Hroom Hcodec) as (w1 & w2 & Hsave & Hreload & Hloaded & Hother & _).
  exists w1, w2. split; [exact Hsave|]. split; [exact Hreload|]. split.
  - intros s x Hpre Hex. apply Hloaded. rewrite Hres. by apply persisted_Some.
  - intros key Hkey. apply Hother. intros s ->.
    destruct (res !! s) as [x|] eqn:Hx; [|reflexivity].
    rewrite Hres in Hx. apply persisted_Some in Hx as (Hpre & e & He & _).
    rewrite (Hkey s eq_refl Hpre) in He. discriminate.
Qed.

(** X15. [Save] does not look at expirations. An entry under the prefix that has
    expired but has not been evicted is written with the others, and [Reload]
    gives it 600 seconds anew: with the clock standing at [now], [Get]
    returns nil for it before the round trip and its payload after. *)
Theorem expired_entry_comes_back (filepath : string) (interval : time.Duration)
    (res : gmap string string) (now : time.Time) (s x : string) (e : element)
    (w : world) :
  string_keys (mapping w) → string_payloads (mapping w) →
  (∀ s, res !! s = persisted (mapping w) s) →
  fs w !! filepath ≠ Some Locked →
  (length (gob_encode res) ≤ disk_free w + length (contents filepath w))%nat →
  gob_decode (gob_encode res) = Some res →
  0 < interval →
  standing w now →
  mapping w !! VString s = Some e →
  HasPrefix s "fakeip:" = true →
  Payload e = VString x →
  Expired e < now →
  result (Get (VString s) w) = Some VNil ∧
  result ((Save filepath ;;; New interval ;;; Reload filepath ;;; Get (VString s)) w)
  = Some (VString x).
Proof.
  intros Hkeys Hpay Hres Hfs Hroom Hcodec Hinterval Hnow He Hpre Hx Hexp.
  split.
  - rewrite (Get_expired _ e w He); [reflexivity | by rewrite (Hnow 0%nat)].
  - destruct (Save_then_Reload filepath interval w Hkeys Hpay Hfs Hinterval)
      as (res' & Hres' & Hrt).
    assert (res' = res) as ->.
    { apply map_eq. intros s'. by rewrite Hres, Hres'. }
    destruct (Hrt Hroom Hcodec) as (w1 & w2 & Hsave & Hreload & Hloaded & _ & Hclock).
    unfold bind at 1. rewrite Hsave.
    unfold bind in Hreload. unfold bind at 1.
    destruct (New interval w1) as [u w0|p|]; [|discriminate..].
    unfold bind at 1. rewrite Hreload.
    destruct (Hloaded s x) as (i & _ & Hs).
    { rewrite Hres. apply persisted_Some. eauto. }
    rewrite (Get_live _ _ w2 Hs); [reflexivity|].
    simpl. rewrite Hclock, !Hnow. unfold time.Second, time.Nanosecond. lia.
Qed.

(** X16. A file that holds the encoding of the empty map: [Reload] returns 0 and
    changes nothing, which is also what it does when the file cannot be
    opened or decoded. *)
Theorem Reload_empty_file (filepath : string) (bs : list Byte.byte) (w : world) :
  fs w !! filepath = Some (Data bs) →
  gob_decode bs = Some ∅ →
  Reload filepath w = Done 0 w.
Proof.
  intros Hfs Hdec. rewrite (Reload_decoded filepath bs ∅ w Hfs Hdec).
  assert (Hnil : map_order ∅ = []).
  { apply Permutation_nil_r. rewrite (map_order_items ∅). by rewrite map_to_list_empty. }
  by rewrite Hnil.
Qed.


(** X12. From the calls to the panic of the sweep: after [Put] with a key that is
    not a string, the next tick that the janitor receives panics, whatever
    else the store holds and whether or not the entry has expired. *)
Theorem Put_other_key_then_tick (k v : value) (ttl : time.Duration)
    (tr : list action) (w : world) :
  janitor w = Running →
  (∀ s, k ≠ VString s) →
  ∃ k', (∀ s, k' ≠ VString s) ∧
        run (CallPut k v ttl :: Janitor Tick :: tr) w
        = Panic (InterfaceConversion k' "string").
Proof.
  intros Hj Hk.
  assert (Hput : step (CallPut k v ttl) w =
                 Done (Some Stored)
                   (set_mapping (<[k := Element (clock w 0%nat + ttl) v]> (mapping w))
                      (tick w))) by reflexivity.
  rewrite run_cons, Hput.
  set (w1 := set_mapping _ (tick w)).
  rewrite run_cons, step_janitor. unfold deliver.
  replace (janitor w1) with Running by (symmetry; exact Hj).
  unfold process_select, bind, cleanup, Range.
  destruct (range_cleanup_panics (sync_order (mapping w1)) w1) as (k' & Hk' & ->).
  - exists k. split; [apply sync_order_elem|split; [exact Hk|]];
      subst w1; simpl; rewrite lookup_insert_eq; eauto.
  - eauto.
Qed.

End Cache.

(** * The model at concrete inputs *)

Lemma reference_sync_order_keys (m : gmap value element) :
  reference.sync_order m ≡ₚ (map_to_list m).*1.
Proof. reflexivity. Qed.

Lemma reference_map_order_items (m : gmap string string) :
  reference.map_order m ≡ₚ map_to_list m.
Proof. reflexivity. Qed.

Lemma mixed_payloads_string_keys : string_keys reference.mixed_payloads.
Proof.
  unfold string_keys, reference.mixed_payloads.
  intros k e [[<- _]|[_ [<- _]%lookup_singleton_Some]]%lookup_insert_Some; eauto.
Qed.

Lemma mixed_payloads_string_payloads : string_payloads reference.mixed_payloads.
Proof.
  unfold string_payloads, reference.mixed_payloads.
  intros s e [[Hs <-]|[_ [Hs <-]%lookup_singleton_Some]]%lookup_insert_Some Hpre.
  - simpl. eauto.
  - injection Hs as <-. discriminate Hpre.
Qed.

(** C1: a NaN is equal to no key, itself included, so [Get] does not find
    what [Put] has just stored under it. *)
Lemma Put_then_Get_NaN :
  ¬ (∀ (k : iface) (v : value) (t : time.Duration) (w : world),
       0 < t →
       clock w 1%nat = clock w 0%nat →
       result ((Put k v t ;;; Get k) w) = Some v).
Proof.
  intros Hclaim.
  specialize (Hclaim NaN (VInt 7) 5 (reference.holding ∅ 0) ltac:(lia) eq_refl).
  discriminate Hclaim.
Qed.

(** C1 (amended) at a concrete input. *)
Lemma Put_then_Get_witness :
  0 < 5 ∧
  result ((Put (VString "k") (VInt 7) 5 ;;; Get (VString "k")) (reference.holding ∅ 0))
  = Some (VInt 7).
Proof.
  split; [lia|]. apply Put_then_Get; [lia | reflexivity].
Defined.

(** C2 at a concrete input: an element before and after its expiration. *)
Lemma Get_lazy_eviction_witness :
  Get (VInt 1) (reference.holding reference.int_key 100) =
  Done (VString "x") (tick (reference.holding reference.int_key 100)) ∧
  Get (VInt 1) (reference.holding reference.int_key 101) =
  Done VNil (set_mapping (delete (VInt 1) reference.int_key)
               (tick (reference.holding reference.int_key 101))).
Proof.
  split.
  - apply (Get_lazy_eviction (VInt 1) (Element 100 (VString "x"))
             (reference.holding reference.int_key 100)); [reflexivity|].
    simpl. lia.
  - apply (Get_lazy_eviction (VInt 1) (Element 100 (VString "x"))
             (reference.holding reference.int_key 101)); [reflexivity|].
    simpl. lia.
Defined.

(** C3: [Save] panics on a payload that is not a string under the prefix, and
    on a key that is not a string. *)
Lemma Save_panics_on_other_types :
  Save reference.sync_order reference.encode "snapshot"
    (reference.holding reference.int_payload 0)
  = Panic (InterfaceConversion (VInt 7) "string") ∧
  Save reference.sync_order reference.encode "snapshot"
    (reference.holding reference.int_key 0)
  = Panic (InterfaceConversion (VInt 1) "string").
Proof. split; vm_compute; reflexivity. Qed.

(** C3 (amended) at a concrete input: the entry under ["other:1"], whose
    payload is an int, is skipped. *)
Lemma Save_persists_prefixed_witness :
  ∃ res w',
    Save reference.sync_order reference.encode "snapshot"
      (reference.holding reference.mixed_payloads 0) = Done None w' ∧
    res !! "fakeip:10.0.0.1" = Some "host-a" ∧
    res !! "other:1" = None ∧
    contents "snapshot" w' = reference.encode res.
Proof.
  destruct (Save_persists_prefixed reference.sync_order reference_sync_order_keys
              reference.encode "snapshot"
              (reference.holding reference.mixed_payloads 0)
              mixed_payloads_string_keys mixed_payloads_string_payloads)
    as (res & err & w' & Hres & Hrun & _ & _ & Hfile).
  assert (Herr : err = None).
  { vm_compute in Hrun. congruence. }
  subst err. exists res, w'. split; [exact Hrun|].
  split; [|split; [|exact (Hfile eq_refl)]].
  - apply Hres. split; [reflexivity|]. eexists. split; reflexivity.
  - destruct (res !! "other:1") as [x|] eqn:Hx; [|reflexivity].
    apply Hres in Hx as [Hpre _]. discriminate Hpre.
Defined.

(** C4 at a concrete input: the store that [Put(1, "x", ttl)] leaves. *)
Lemma cleanup_panics_on_other_keys_witness :
  ∃ k', (∀ s, k' ≠ VString s) ∧
        cleanup reference.sync_order (reference.holding reference.int_key 0)
        = Panic (InterfaceConversion k' "string").
Proof.
  apply (cleanup_panics_on_other_keys reference.sync_order reference_sync_order_keys
           (VInt 1) (Element 100 (VString "x"))); [reflexivity | discriminate].
Defined.

(** C5 at a concrete input. *)
Lemma Save_Reload_round_trip_witness :
  ∃ w1 w2,
    Save reference.sync_order reference.encode "snapshot"
      (reference.holding reference.two_entries 0) = Done None w1 ∧
    contents "snapshot" w1 = reference.encode {[ "fakeip:10.0.0.1" := "host-a" ]} ∧
    (New time.Second ;;; Reload reference.map_order reference.decode "snapshot") w1
      = Done 1 w2 ∧
    result ((a <- Get (VString "fakeip:10.0.0.1") ;;
             b <- Get (VString "other:1") ;;
             ret (a, b)) w2)
    = Some (VString "host-a", VNil).
Proof.
  apply (Save_Reload_round_trip reference.sync_order reference_sync_order_keys
           reference.map_order reference_map_order_items
           reference.encode reference.decode
           "snapshot" time.Second 100 100 (reference.holding reference.two_entries 0)).
  - reflexivity.
  - discriminate.
  - vm_compute. lia.
  - vm_compute. reflexivity.
  - reflexivity.
  - vm_compute. discriminate.
Defined.

(** C6 at a concrete input: the entry had expiration 100 in the store; it is
    reloaded at time 1000. *)
Lemma Reload_fixed_ttl_witness :
  ∃ w',
    Reload reference.map_order reference.decode "snapshot"
      (reference.snapshotted reference.two_entries 1000
         {[ "fakeip:10.0.0.1" := "host-a" ]}) = Done 1 w' ∧
    mapping w' !! VString "fakeip:10.0.0.1" =
    Some (Element (1000 + 600 * time.Second) (VString "host-a")).
Proof.
  destruct (Reload_fixed_ttl reference.map_order reference_map_order_items
              reference.decode "snapshot"
              (reference.encode {[ "fakeip:10.0.0.1" := "host-a" ]})
              {[ "fakeip:10.0.0.1" := "host-a" ]}
              (reference.snapshotted reference.two_entries 1000
                 {[ "fakeip:10.0.0.1" := "host-a" ]}))
    as (w' & Hrun & _ & Hloaded & _).
  - reflexivity.
  - vm_compute. reflexivity.
  - exists w'. split; [exact Hrun|].
    apply (Hloaded 0%nat "fakeip:10.0.0.1" "host-a"). reflexivity.
Defined.

(** C7 at a concrete input: no file at the path. *)
Lemma Reload_failure_witness :
  Reload reference.map_order reference.decode "snapshot"
    (reference.holding reference.two_entries 0)
  = Done 0 (reference.holding reference.two_entries 0).
Proof.
  apply Reload_failure. intros bs H. vm_compute in H. discriminate H.
Defined.

(** C8: the code at the failing input. The store holds an expired entry under
    the key [1] (an int); the clock stands past its expiration; the sweep
    panics and the expired entry is not removed. *)
Theorem cleanup_leaves_expired_entry :
  reference.int_key !! VInt 1 = Some (Element 100 (VString "x")) ∧
  cleanup reference.sync_order (reference.holding reference.int_key 101)
  = Panic (InterfaceConversion (VInt 1) "string") ∧
  final (cleanup reference.sync_order (reference.holding reference.int_key 101)) = None.
Proof. repeat split; vm_compute; reflexivity. Qed.



(** * The further properties at concrete inputs *)

Lemma two_entries_string_keys : string_keys reference.two_entries.
Proof.
  unfold string_keys, reference.two_entries.
  intros k e [[<- _]|[_ [<- _]%lookup_singleton_Some]]%lookup_insert_Some; eauto.
Qed.

Lemma two_entries_string_payloads : string_payloads reference.two_entries.
Proof.
  unfold string_payloads, reference.two_entries.
  intros s e [[_ <-]|[_ [_ <-]%lookup_singleton_Some]]%lookup_insert_Some _;
    simpl; eauto.
Qed.

Lemma two_entries_persisted (s : string) :
  ({[ "fakeip:10.0.0.1" := "host-a" ]} : gmap string string) !! s
  = persisted reference.two_entries s.
Proof. symmetry. apply persisted_example. Qed.

Lemma advancing_nondecreasing (m : gmap value element) (t0 step : time.Time) :
  0 ≤ step → nondecreasing (reference.advancing m t0 step).
Proof. intros Hstep i j Hij. simpl. nia. Qed.

(** An entry put for 5 units, read when the clock has gained 10. *)
Lemma reads_after_expiry_witness :
  ∃ w',
    (Put (VInt 1) (VString "x") 5 ;;;
     a <- Get (VInt 1) ;; b <- GetWithExpire (VInt 1) ;; ret (a, b))
      (reference.advancing ∅ 0 10)
    = Done (VNil, (VNil, time.zero)) w' ∧
    mapping w' !! VInt 1 = None.
Proof.
  destruct (reads_after_expiry (VInt 1) (VString "x") 5 (reference.advancing ∅ 0 10))
    as (w' & Hrun & Hmap & _).
  - simpl. lia.
  - exists w'. split; [exact Hrun|]. rewrite Hmap. apply lookup_delete_eq.
Defined.

(** Two string keys, both expired when the sweep checks them. *)
Lemma cleanup_string_keys_witness :
  ∃ w',
    cleanup reference.sync_order (reference.holding reference.two_entries 101)
    = Done tt w' ∧
    mapping w' !! VString "other:1" = None.
Proof.
  destruct (cleanup_string_keys reference.sync_order reference_sync_order_keys
              (reference.holding reference.two_entries 101) two_entries_string_keys)
    as (w' & Hrun & Hswept & _).
  exists w'. split; [exact Hrun|].
  destruct (Hswept (VString "other:1") (Element 100 (VString "x")) eq_refl)
    as (i & _ & _ & Hk).
  rewrite Hk. apply decide_True. simpl. lia.
Defined.

(** Nothing has expired at 50: the sweep keeps both entries. *)
Lemma cleanup_at_standing_clock_witness :
  ∃ w',
    cleanup reference.sync_order (reference.holding reference.mixed_payloads 50)
    = Done tt w' ∧
    mapping w' = filter (λ kv, 50 ≤ Expired kv.2) reference.mixed_payloads.
Proof.
  destruct (cleanup_at_standing_clock reference.sync_order reference_sync_order_keys
              50 (reference.holding reference.mixed_payloads 50)
              mixed_payloads_string_keys (λ n, eq_refl))
    as (w' & Hrun & Hmap & _).
  exists w'. split; [exact Hrun | exact Hmap].
Defined.

Lemma cleanup_twice_witness :
  ∃ w1 w2,
    cleanup reference.sync_order (reference.holding reference.two_entries 101)
    = Done tt w1 ∧
    cleanup reference.sync_order w1 = Done tt w2 ∧
    mapping w2 = mapping w1.
Proof.
  apply (cleanup_twice reference.sync_order reference_sync_order_keys 101
           (reference.holding reference.two_entries 101)
           two_entries_string_keys (λ n, eq_refl)).
Defined.

(** The clock goes from 90 by steps of 10: the entries expire during the
    sweep. *)
Lemma cleanup_unseen_by_Get_witness :
  result ((cleanup reference.sync_order ;;; Get (VString "other:1"))
            (reference.advancing reference.two_entries 90 10))
  = result (Get (VString "other:1")
              (set_clock (λ n, 90 + 10 * Z.of_nat (2 + n))
                 (reference.advancing reference.two_entries 90 10))).
Proof.
  apply (cleanup_unseen_by_Get reference.sync_order reference_sync_order_keys
           (VString "other:1") (reference.advancing reference.two_entries 90 10)
           two_entries_string_keys).
  apply advancing_nondecreasing. lia.
Defined.

Lemma string_keys_never_panic_witness :
  ∃ rs w',
    run reference.sync_order
      [CallPut (VString "a") (VInt 1) 5; Janitor Tick; CallGet (VString "a");
       CallGet NaN; CallGetWithExpire (VInt 1)]
      (reference.holding reference.two_entries 0)
    = Done rs w' ∧ string_keys (mapping w').
Proof.
  apply (string_keys_never_panic reference.sync_order reference_sync_order_keys).
  - exact two_entries_string_keys.
  - repeat apply Forall_cons_2; try apply Forall_nil_2; simpl;
      [eauto | reflexivity | discriminate..].
Defined.

(** Keys that are not strings, an entry under a NaN, and ticks: harmless once
    the janitor has returned. *)
Lemma returned_never_panics_witness :
  ∃ rs w',
    run reference.sync_order
      [CallPut NaN (VString "y") 5; Janitor Tick; CallGet (VInt 1); CallGet NaN]
      (set_janitor Returned (reference.holding reference.int_key 0))
    = Done rs w' ∧ janitor w' = Returned.
Proof.
  apply (returned_never_panics reference.sync_order); [reflexivity|].
  repeat apply Forall_cons_2; try apply Forall_nil_2; simpl;
    [discriminate | reflexivity | discriminate..].
Defined.

Lemma Save_faults_after_create_witness :
  ∃ p, Save reference.sync_order reference.encode "snapshot"
         (reference.holding reference.int_payload 0) = Panic p.
Proof.
  apply (Save_faults_after_create reference.sync_order reference_sync_order_keys
           reference.encode "snapshot"
           (VString "fakeip:10.0.0.1") (Element 100 (VInt 7))
           (reference.holding reference.int_payload 0)).
  - reflexivity.
  - right. exists "fakeip:10.0.0.1". repeat split. discriminate.
  - discriminate.
Defined.

Lemma Save_Reload_restores_witness :
  ∃ w1 w2,
    Save reference.sync_order reference.encode "snapshot"
      (reference.holding reference.two_entries 0) = Done None w1 ∧
    (New time.Second ;;; Reload reference.map_order reference.decode "snapshot") w1
    = Done 1 w2 ∧
    mapping w2 !! VString "other:1" = None.
Proof.
  destruct (Save_Reload_restores reference.sync_order reference_sync_order_keys
              reference.map_order reference_map_order_items
              reference.encode reference.decode
              "snapshot" time.Second {[ "fakeip:10.0.0.1" := "host-a" ]}
              (reference.holding reference.two_entries 0)
              two_entries_string_keys two_entries_string_payloads
              two_entries_persisted)
    as (w1 & w2 & Hsave & Hreload & _ & Hother).
  - discriminate.
  - vm_compute. lia.
  - vm_compute. reflexivity.
  - reflexivity.
  - exists w1, w2. split; [exact Hsave|]. split; [exact Hreload|].
    apply Hother. intros s [= <-] Hpre. discriminate Hpre.
Defined.

(** Both entries expired at 100; at 101 the one under the prefix comes back. *)
Lemma expired_entry_comes_back_witness :
  result (Get (VString "fakeip:10.0.0.1") (reference.holding reference.two_entries 101))
  = Some VNil ∧
  result ((Save reference.sync_order reference.encode "snapshot" ;;;
           New time.Second ;;;
           Reload reference.map_order reference.decode "snapshot" ;;;
           Get (VString "fakeip:10.0.0.1"))
            (reference.holding reference.two_entries 101))
  = Some (VString "host-a").
Proof.
  apply (expired_entry_comes_back reference.sync_order reference_sync_order_keys
           reference.map_order reference_map_order_items
           reference.encode reference.decode
           "snapshot" time.Second {[ "fakeip:10.0.0.1" := "host-a" ]} 101
           "fakeip:10.0.0.1" "host-a" (Element 100 (VString "host-a"))
           (reference.holding reference.two_entries 101)
           two_entries_string_keys two_entries_string_payloads
           two_entries_persisted).
  - discriminate.
  - vm_compute. lia.
  - vm_compute. reflexivity.
  - reflexivity.
  - intros n. reflexivity.
  - reflexivity.
  - reflexivity.
  - reflexivity.
  - simpl. lia.
Defined.

Lemma Reload_empty_file_witness :
  Reload reference.map_order reference.decode "snapshot"
    (reference.snapshotted reference.two_entries 0 ∅)
  = Done 0 (reference.snapshotted reference.two_entries 0 ∅).
Proof.
  apply (Reload_empty_file reference.map_order reference_map_order_items
           reference.decode "snapshot" (reference.encode ∅)).
  - reflexivity.
  - vm_compute. reflexivity.
Defined.

Lemma Put_other_key_then_tick_witness :
  ∃ k', (∀ s, k' ≠ VString s) ∧
        run reference.sync_order
          [CallPut (VInt 1) (VString "x") time.Second; Janitor Tick;
           CallGet (VInt 1)]
          (reference.holding ∅ 0)
        = Panic (InterfaceConversion k' "string").
Proof.
  apply (Put_other_key_then_tick reference.sync_order reference_sync_order_keys);
    [reflexivity | discriminate].
Defined.
